(** * curl-multi-asio: the Multi handle and its per-transfer completion handlers

    A shallow embedding of [include/curl-multi-asio/Multi.h].

    The header holds the whole of [PerformHandlerBase], [PerformHandler],
    the body that [AsyncPerform] posts to the strand, [operator bool] and
    the destructor of [Multi].  Calls into libcurl and invocations of the
    caller's completion handler are effects; they are recorded, in program
    order, in a log of actions carried by the [World].  The answer libcurl
    gives to [curl_multi_add_handle] is an input of the step that makes
    the call: the engine is opaque. *)

From stdpp Require Import gmap list.

Open Scope Z_scope.

(** ** Handles, codes and options *)

(** A pointer is its address; [nullptr] is address 0. *)
Abbreviation ptr := N (only parsing).
Definition nullptr : ptr := 0%N.

(** [CURL*], the easy handle, and [CURLM*], the multi handle. *)
Abbreviation CURL := N (only parsing).
Abbreviation CURLM := N (only parsing).

(** [CURLMcode] and [CURLcode] are C enums. *)
Abbreviation CURLMcode := Z (only parsing).
Abbreviation CURLcode := Z (only parsing).
Definition CURLM_OK : CURLMcode := 0.
Definition CURLM_BAD_EASY_HANDLE : CURLMcode := 2.
Definition CURLM_OUT_OF_MEMORY : CURLMcode := 3.
Definition CURLM_ADDED_ALREADY : CURLMcode := 7.

(** [CURLoption], with the four options [AsyncPerform] sets. *)
Abbreviation CURLoption := Z (only parsing).
Definition CURLOPT_OPENSOCKETFUNCTION : CURLoption := 20163.
Definition CURLOPT_OPENSOCKETDATA : CURLoption := 10164.
Definition CURLOPT_CLOSESOCKETFUNCTION : CURLoption := 20208.
Definition CURLOPT_CLOSESOCKETDATA : CURLoption := 10209.

(** What [AsyncPerform] stores under those options: the address of one of
    the two static callbacks of [Multi], or the [this] pointer. *)
Inductive optval : Type :=
  | fn_OpenSocketCb
  | fn_CloseSocketCb
  | data_Multi (this : ptr).

(** Modelled from the spec: [cma::error_code] is declared in Error.h, which
    is not among the sources.  The header converts a [CURLMcode] to it
    ([Complete(res)]) and passes [asio::error::operation_aborted]; the spec
    has completions carry "success, engine-level error, or cancellation",
    a drained transfer carry "the reported result", and a cancel carry "a
    cancellation result carrying [reason]". *)
Inductive error_code : Type :=
  | ec_curlm (c : CURLMcode)
  | ec_curle (c : CURLcode)
  | operation_aborted
  | cancellation (reason : CURLMcode).

Definition is_cancellation (ec : error_code) : bool :=
  match ec with
  | operation_aborted | cancellation _ => true
  | ec_curlm _ | ec_curle _ => false
  end.

(** The caller's completion handler, [void(error_code)], is opaque: it is
    known by an identity and each call of it is logged. *)
Abbreviation Handler := nat (only parsing).

(** ** The world outside the bridge *)

Inductive action : Type :=
  | curl_easy_setopt (easy : CURL) (option : CURLoption) (val : optval)
  | curl_multi_add_handle (multi : CURLM) (easy : CURL) (res : CURLMcode)
  | curl_multi_remove_handle (multi : CURLM) (easy : CURL)
  | call_handler (handler : Handler) (ec : error_code)
  | write_m_handled (easy : CURL) (handler : Handler) (handled : bool)
  | curl_multi_cleanup (multi : CURLM).

Record World : Type := mkWorld {
  w_log : list action;
  w_easyopt : gmap (N * Z) optval
}.

Definition World_init : World := mkWorld [] ∅.

(** Effectful code threads the world. *)
Definition M (A : Type) : Type := World → A * World.

#[global] Instance M_ret : MRet M := λ A (a : A) w, (a, w).
#[global] Instance M_bind : MBind M := λ A B (f : A → M B) (c : M A) w,
  let '(a, w') := c w in f a w'.

Definition emit (a : action) : M unit :=
  λ w, (tt, mkWorld (w_log w ++ [a]) (w_easyopt w)).

(** What libcurl keeps of a [curl_easy_setopt]: the value, in the easy
    handle.  For a null handle the call fails with
    [CURLE_BAD_FUNCTION_ARGUMENT] and nothing is kept. *)
Definition store_easyopt (easy : CURL) (option : CURLoption) (val : optval) : M unit :=
  λ w, (tt, if N.eqb easy nullptr then w
            else mkWorld (w_log w) (<[(easy, option) := val]> (w_easyopt w))).

Definition exec {A} (c : M A) (w : World) : World := snd (c w).
Definition eval {A} (c : M A) (w : World) : A := fst (c w).

(** The actions a computation adds to the log. *)
Definition performed {A} (c : M A) (w : World) : list action :=
  drop (length (w_log w)) (w_log (exec c w)).

(** ** PerformHandlerBase and PerformHandler<Handler> *)

Record PerformHandler : Type := mkPerformHandler {
  m_easyHandle : CURL;
  m_multiHandle : CURLM;
  m_handled : bool;
  m_handler : Handler
}.

(** [PerformHandler(easyHandle, multiHandle, handler)]; [m_handled = false]. *)
Definition PerformHandler_ctor (easyHandle : CURL) (multiHandle : CURLM)
    (handler : Handler) : PerformHandler :=
  mkPerformHandler easyHandle multiHandle false handler.

Definition GetEasyHandle (self : PerformHandler) : CURL := m_easyHandle self.
Definition GetMultiHandle (self : PerformHandler) : CURLM := m_multiHandle self.
Definition Handled (self : PerformHandler) : bool := m_handled self.

Definition SetHandled (handled : bool) (self : PerformHandler) : M PerformHandler :=
  emit (write_m_handled (m_easyHandle self) (m_handler self) handled) ;;
  mret (mkPerformHandler (m_easyHandle self) (m_multiHandle self) handled
          (m_handler self)).

(** [void Complete(cma::error_code ec) noexcept]. *)
Definition Complete (ec : error_code) (self : PerformHandler) : M PerformHandler :=
  if Handled self then mret self
  else
    emit (curl_multi_remove_handle (GetMultiHandle self) (GetEasyHandle self)) ;;
    emit (call_handler (m_handler self) ec) ;;
    SetHandled true self.

(** [~PerformHandler() noexcept]. *)
Definition PerformHandler_dtor (self : PerformHandler) : M unit :=
  if negb (Handled self) then Complete operation_aborted self ;; mret tt
  else mret tt.

(** ** Easy, as far as [Multi] uses it *)

Module Easy.

(** Modelled from the spec: Easy.h is not among the sources; the transfer
    handle is "an opaque handle with a stable identity and an
    option-setting interface". *)
Record t : Type := mk { m_nativeHandle : CURL }.

Definition GetNativeHandle (self : t) : CURL := m_nativeHandle self.

(** [SetOption] passes the option to libcurl, which stores it in the easy
    handle; [AsyncPerform] drops the code it returns. *)
Definition SetOption (self : t) (option : CURLoption) (val : optval) : M unit :=
  emit (curl_easy_setopt (GetNativeHandle self) option val) ;;
  store_easyopt (GetNativeHandle self) option val.

End Easy.

(** ** Multi *)

(** The members that the modelled operations read or write.  The socket
    map, the timer and the strand take part in none of them. *)
Record Multi : Type := mkMulti {
  m_executor : nat;
  m_easyHandlerMap : gmap N PerformHandler;
  m_nativeHandle : CURLM
}.

Definition GetExecutor (self : Multi) : nat := m_executor self.
Definition GetNativeHandle (self : Multi) : CURLM := m_nativeHandle self.

(** [operator bool]: [m_nativeHandle != nullptr]. *)
Definition operator_bool (self : Multi) : bool :=
  negb (N.eqb (m_nativeHandle self) nullptr).

Definition set_easyHandlerMap (map : gmap N PerformHandler) (self : Multi) : Multi :=
  mkMulti (m_executor self) map (m_nativeHandle self).

(** Modelled from the spec: the constructor's body is in Multi.cpp, which
    is not among the sources.  The Bridge "owns the engine instance" and
    its registry starts empty; [init] is what [curl_multi_init] returned,
    [nullptr] when the engine could not be constructed.  The constructor
    is declared [noexcept]: it always yields a [Multi]. *)
Definition Multi_ctor (executor : nat) (init : CURLM) : Multi :=
  mkMulti executor ∅ init.

(** [m_easyHandlerMap.emplace(key, std::move(value))].  With the key taken
    nothing is inserted, and the handler that was to be stored is destroyed
    before the enclosing scope is left. *)
Definition emplace (key : CURL) (value : PerformHandler)
    (map : gmap N PerformHandler) : M (gmap N PerformHandler) :=
  match map !! key with
  | None => mret (<[key := value]> map)
  | Some _ => PerformHandler_dtor value ;; mret map
  end.

(** The function object that [AsyncPerform] posts to the strand.  [this] is
    the address of the [Multi]; [res] is the code the engine returns from
    [curl_multi_add_handle]. *)
Definition AsyncPerform (this : ptr) (easy : Easy.t) (handler : Handler)
    (res : CURLMcode) (self : Multi) : M Multi :=
  Easy.SetOption easy CURLOPT_OPENSOCKETFUNCTION fn_OpenSocketCb ;;
  Easy.SetOption easy CURLOPT_OPENSOCKETDATA (data_Multi this) ;;
  Easy.SetOption easy CURLOPT_CLOSESOCKETFUNCTION fn_CloseSocketCb ;;
  Easy.SetOption easy CURLOPT_CLOSESOCKETDATA (data_Multi this) ;;
  let performHandler :=
    PerformHandler_ctor (Easy.GetNativeHandle easy) (GetNativeHandle self) handler in
  emit (curl_multi_add_handle (GetNativeHandle self) (Easy.GetNativeHandle easy) res) ;;
  if negb (Z.eqb res CURLM_OK) then
    performHandler ← Complete (ec_curlm res) performHandler ;
    PerformHandler_dtor performHandler ;;
    mret self
  else
    map ← emplace (Easy.GetNativeHandle easy) performHandler (m_easyHandlerMap self) ;
    mret (set_easyHandlerMap map self).

(** Calling [Complete(ec)] on each handler of a sequence of registry
    entries, and destroying each handler of such a sequence. *)
Fixpoint Complete_each (ec : error_code) (l : list (N * PerformHandler))
    : M (list (N * PerformHandler)) :=
  match l with
  | [] => mret []
  | (key, h) :: l' =>
      h' ← Complete ec h ;
      r ← Complete_each ec l' ;
      mret ((key, h') :: r)
  end.

Fixpoint destroy_each (l : list (N * PerformHandler)) : M unit :=
  match l with
  | [] => mret tt
  | (_, h) :: l' => PerformHandler_dtor h ;; destroy_each l'
  end.

(** Modelled from the spec: the body of
    [size_t Cancel(cma::error_code&, CURLMcode error)] is in Multi.cpp,
    which is not among the sources.  "For every entry in the registry,
    forces completion of its PendingOperation with a cancellation result
    carrying [reason], unregisters from the engine, clears the registry;
    returns the count cancelled."  The spec says nothing of the [ec]
    output. *)
Definition Cancel (error : CURLMcode) (self : Multi) : M (nat * Multi) :=
  let numHandlers := size (m_easyHandlerMap self) in
  entries ← Complete_each (cancellation error) (map_to_list (m_easyHandlerMap self)) ;
  destroy_each entries ;;
  mret (numHandlers, set_easyHandlerMap ∅ self).

(** Modelled from the spec: the body of
    [bool Cancel(const Easy&, CURLMcode error)] is in Multi.cpp, which is
    not among the sources.  "Same, restricted to the single matching
    registry entry if present; returns whether one was found and
    cancelled." *)
Definition Cancel_easy (easy : Easy.t) (error : CURLMcode) (self : Multi)
    : M (bool * Multi) :=
  match m_easyHandlerMap self !! Easy.GetNativeHandle easy with
  | None => mret (false, self)
  | Some h =>
      h' ← Complete (cancellation error) h ;
      PerformHandler_dtor h' ;;
      mret (true, set_easyHandlerMap
                    (delete (Easy.GetNativeHandle easy) (m_easyHandlerMap self)) self)
  end.

(** The members are destroyed in the reverse order of their declaration:
    [m_nativeHandle], whose deleter [curl_multi_cleanup] runs on a pointer
    that is not null, and later [m_easyHandlerMap], which destroys every
    handler it still owns. *)
Definition destroy_members (self : Multi) : M unit :=
  (if operator_bool self then emit (curl_multi_cleanup (GetNativeHandle self))
   else mret tt) ;;
  destroy_each (map_to_list (m_easyHandlerMap self)).

(** [~Multi() noexcept { cma::error_code ignored; Cancel(ignored); }], the
    [error] argument taking its default [CURLM_OK]. *)
Definition Multi_dtor (self : Multi) : M unit :=
  '(_, self') ← Cancel CURLM_OK self ;
  destroy_members self'.

(** ** Operations on the registry from inside [Multi] *)

(** The bodies of [CheckTransfers] and of both [Cancel] overloads are in
    Multi.cpp.  The registry owns its handlers through [std::unique_ptr],
    and a handler offers [Complete] and its destructor; so whatever code
    of [Multi] does to a handler of the registry is a call of [Complete]
    on an entry or the destruction of an entry. *)

(** [it->second->Complete(ec)] for the entry under [key]. *)
Definition entry_Complete (key : CURL) (ec : error_code) (self : Multi) : M Multi :=
  match m_easyHandlerMap self !! key with
  | None => mret self
  | Some h =>
      h' ← Complete ec h ;
      mret (set_easyHandlerMap (<[key := h']> (m_easyHandlerMap self)) self)
  end.

(** [m_easyHandlerMap.erase(key)]. *)
Definition entry_erase (key : CURL) (self : Multi) : M Multi :=
  match m_easyHandlerMap self !! key with
  | None => mret self
  | Some h =>
      PerformHandler_dtor h ;;
      mret (set_easyHandlerMap (delete key (m_easyHandlerMap self)) self)
  end.

Inductive op : Type :=
  | op_AsyncPerform (easy : Easy.t) (handler : Handler) (res : CURLMcode)
  | op_Complete (key : CURL) (ec : error_code)
  | op_erase (key : CURL).

Definition run_op (this : ptr) (o : op) (self : Multi) : M Multi :=
  match o with
  | op_AsyncPerform easy handler res => AsyncPerform this easy handler res self
  | op_Complete key ec => entry_Complete key ec self
  | op_erase key => entry_erase key self
  end.

Fixpoint run (this : ptr) (ops : list op) (self : Multi) : M Multi :=
  match ops with
  | [] => mret self
  | o :: ops' => self' ← run_op this o self ; run this ops' self'
  end.

(** The life of a [Multi]: operations, then the destruction of its members. *)
Definition lifetime (this : ptr) (ops : list op) (self : Multi) : M unit :=
  self' ← run this ops self ;
  destroy_members self'.

(** ** Reading the log *)

(** What [Complete(ec)] does on a handler. *)
Definition Complete_actions (ec : error_code) (self : PerformHandler) : list action :=
  if Handled self then []
  else [curl_multi_remove_handle (GetMultiHandle self) (GetEasyHandle self);
        call_handler (m_handler self) ec;
        write_m_handled (m_easyHandle self) (m_handler self) true].

(** The handler as [Complete] leaves it. *)
Definition completed (self : PerformHandler) : PerformHandler :=
  if Handled self then self
  else mkPerformHandler (m_easyHandle self) (m_multiHandle self) true (m_handler self).

Definition is_call_of (handler : Handler) (a : action) : bool :=
  match a with
  | call_handler h _ => Nat.eqb h handler
  | _ => false
  end.

Definition is_cancel_call (a : action) : bool :=
  match a with
  | call_handler _ ec => is_cancellation ec
  | _ => false
  end.

Definition is_remove (a : action) : bool :=
  match a with
  | curl_multi_remove_handle _ _ => true
  | _ => false
  end.

Fixpoint count {A} (p : A → bool) (l : list A) : nat :=
  match l with
  | [] => 0%nat
  | a :: l' => ((if p a then 1 else 0) + count p l')%nat
  end.

(** How many times [handler] was called. *)
Definition invocations (handler : Handler) (l : list action) : nat :=
  count (is_call_of handler) l.

(** A registry entry whose handler is [handler] and not yet handled. *)
Definition is_pending (handler : Handler) (e : N * PerformHandler) : bool :=
  negb (Handled e.2) && Nat.eqb (m_handler e.2) handler.

Definition pending (handler : Handler) (self : Multi) : nat :=
  count (is_pending handler) (map_to_list (m_easyHandlerMap self)).

Definition launches_of (handler : Handler) (o : op) : bool :=
  match o with
  | op_AsyncPerform _ h _ => Nat.eqb h handler
  | _ => false
  end.

(** How many launches of a script carry [handler]. *)
Definition launches (handler : Handler) (ops : list op) : nat :=
  count (launches_of handler) ops.

(** A log in which every unregistration, every call of a handler and every
    write of [m_handled] stands in a run of three: the unregistration of
    an easy handle, then the call, then the write of [true] by the same
    handler object. *)
Fixpoint Complete_shaped (l : list action) : bool :=
  match l with
  | [] => true
  | curl_multi_remove_handle _ easy :: call_handler h _
      :: write_m_handled easy' h' true :: l' =>
      N.eqb easy easy' && Nat.eqb h h' && Complete_shaped l'
  | curl_easy_setopt _ _ _ :: l' => Complete_shaped l'
  | curl_multi_add_handle _ _ _ :: l' => Complete_shaped l'
  | curl_multi_cleanup _ :: l' => Complete_shaped l'
  | _ => false
  end.

(** The options [AsyncPerform] leaves on an easy handle. *)
Definition socket_options_set (this : ptr) (easy : CURL) (w : World) : Prop :=
  w_easyopt w !! (easy, CURLOPT_OPENSOCKETFUNCTION) = Some fn_OpenSocketCb ∧
  w_easyopt w !! (easy, CURLOPT_OPENSOCKETDATA) = Some (data_Multi this) ∧
  w_easyopt w !! (easy, CURLOPT_CLOSESOCKETFUNCTION) = Some fn_CloseSocketCb ∧
  w_easyopt w !! (easy, CURLOPT_CLOSESOCKETDATA) = Some (data_Multi this).

(** The world with [l] appended to its log. *)
Definition appended (l : list action) (w : World) : World :=
  mkWorld (w_log w ++ l) (w_easyopt w).

(** What destroying [m_nativeHandle] does. *)
Definition cleanup_actions (self : Multi) : list action :=
  if operator_bool self then [curl_multi_cleanup (GetNativeHandle self)] else [].

(** What [AsyncPerform] does up to and including the call of
    [curl_multi_add_handle]. *)
Definition setopt_actions (this : ptr) (easy : CURL) : list action :=
  [curl_easy_setopt easy CURLOPT_OPENSOCKETFUNCTION fn_OpenSocketCb;
   curl_easy_setopt easy CURLOPT_OPENSOCKETDATA (data_Multi this);
   curl_easy_setopt easy CURLOPT_CLOSESOCKETFUNCTION fn_CloseSocketCb;
   curl_easy_setopt easy CURLOPT_CLOSESOCKETDATA (data_Multi this)].

Definition registering (this : ptr) (easy : CURL) (multi : CURLM)
    (res : CURLMcode) (w : World) : World :=
  mkWorld
    (w_log w ++ setopt_actions this easy ++ [curl_multi_add_handle multi easy res])
    (if N.eqb easy nullptr then w_easyopt w
     else
       <[(easy, CURLOPT_CLOSESOCKETDATA) := data_Multi this]>
         (<[(easy, CURLOPT_CLOSESOCKETFUNCTION) := fn_CloseSocketCb]>
            (<[(easy, CURLOPT_OPENSOCKETDATA) := data_Multi this]>
               (<[(easy, CURLOPT_OPENSOCKETFUNCTION) := fn_OpenSocketCb]>
                  (w_easyopt w))))).

(** A computation that only extends the log, by a well-shaped run. *)
Definition shaped {A} (c : M A) : Prop :=
  ∀ w, ∃ a l o, c w = (a, mkWorld (w_log w ++ l) o) ∧ Complete_shaped l = true.

Definition is_call (a : action) : bool :=
  match a with
  | call_handler _ _ => true
  | _ => false
  end.

(** A registry entry that has not been handled. *)
Definition is_unhandled (e : N * PerformHandler) : bool := negb (Handled e.2).

(** The three steps of a forced completion of a pending entry. *)
Definition forced_completion (ec : error_code) (e : N * PerformHandler) : list action :=
  [curl_multi_remove_handle (m_multiHandle e.2) (m_easyHandle e.2);
   call_handler (m_handler e.2) ec;
   write_m_handled (m_easyHandle e.2) (m_handler e.2) true].

(** ** Further readings of the registry and of the log *)

(** Every entry is filed under the easy handle its handler holds, and its
    handler holds the native handle of the [Multi]. *)
Definition well_keyed (self : Multi) : Prop :=
  ∀ key h, m_easyHandlerMap self !! key = Some h →
    m_easyHandle h = key ∧ m_multiHandle h = GetNativeHandle self.

(** A call into the engine that names a multi handle names [multi]. *)
Definition targets (multi : CURLM) (a : action) : bool :=
  match a with
  | curl_multi_add_handle m _ _ => N.eqb m multi
  | curl_multi_remove_handle m _ => N.eqb m multi
  | curl_multi_cleanup m => N.eqb m multi
  | _ => true
  end.

Definition is_add (a : action) : bool :=
  match a with
  | curl_multi_add_handle _ _ _ => true
  | _ => false
  end.

Definition is_launch (o : op) : bool :=
  match o with
  | op_AsyncPerform _ _ _ => true
  | _ => false
  end.

(** The entries of the registry that are not yet handled. *)
Definition unhandled (self : Multi) : nat :=
  count is_unhandled (map_to_list (m_easyHandlerMap self)).

(** The easy handles passed to [curl_multi_add_handle] so far, [seen]
    being those passed before [l]. *)
Fixpoint seen_after (seen : list N) (l : list action) : list N :=
  match l with
  | [] => seen
  | curl_multi_add_handle _ easy _ :: l' => seen_after (easy :: seen) l'
  | _ :: l' => seen_after seen l'
  end.

(** Every [curl_multi_remove_handle] of [l] names an easy handle that an
    earlier [curl_multi_add_handle] named. *)
Fixpoint registered_before (seen : list N) (l : list action) : bool :=
  match l with
  | [] => true
  | curl_multi_add_handle _ easy _ :: l' => registered_before (easy :: seen) l'
  | curl_multi_remove_handle _ easy :: l' =>
      existsb (N.eqb easy) seen && registered_before seen l'
  | _ :: l' => registered_before seen l'
  end.

(** The four options of an easy handle that [AsyncPerform] writes. *)
Definition socket_option_keys (easy : CURL) : list (N * Z) :=
  [(easy, CURLOPT_OPENSOCKETFUNCTION); (easy, CURLOPT_OPENSOCKETDATA);
   (easy, CURLOPT_CLOSESOCKETFUNCTION); (easy, CURLOPT_CLOSESOCKETDATA)].

Definition is_cleanup (a : action) : bool :=
  match a with
  | curl_multi_cleanup _ => true
  | _ => false
  end.

(** Whether the engine holds [easy] under [multi] after the calls of a
    log, [before] telling whether it held it before them.  libcurl holds
    an easy handle from a [curl_multi_add_handle] that returned
    [CURLM_OK] until the next [curl_multi_remove_handle] of it. *)
Fixpoint tracked (multi : CURLM) (easy : CURL) (before : bool) (l : list action)
    : bool :=
  match l with
  | [] => before
  | curl_multi_add_handle m e res :: l' =>
      tracked multi easy
        (if N.eqb m multi && N.eqb e easy && Z.eqb res CURLM_OK then true else before)
        l'
  | curl_multi_remove_handle m e :: l' =>
      tracked multi easy (if N.eqb m multi && N.eqb e easy then false else before) l'
  | _ :: l' => tracked multi easy before l'
  end.

(** ** The call of AsyncPerform and the executor *)

(** [AsyncPerform(easyHandle, token)] itself only posts: its initiation
    hands to [asio::post] a function object that holds the handler, moved
    into it, and a reference to the easy handle.  [posted] are the
    function objects that wait in the executor.  No [PerformHandler]
    exists before the executor runs the function object; a function
    object that the executor destroys without running it takes its
    handler with it, uncalled. *)
Definition post_AsyncPerform (easy : Easy.t) (handler : Handler)
    (posted : list (Easy.t * Handler)) : list (Easy.t * Handler) :=
  posted ++ [(easy, handler)].

(** What happens around a [Multi]: a call of [AsyncPerform]; the executor
    running the [n]-th waiting function object, the engine answering
    [res]; the executor destroying it unrun; and, from Multi.cpp, a
    [Complete] on a registry entry or the erasure of one. *)
Inductive event : Type :=
  | ev_AsyncPerform (easy : Easy.t) (handler : Handler)
  | ev_run (n : nat) (res : CURLMcode)
  | ev_discard (n : nat)
  | ev_Complete (key : CURL) (ec : error_code)
  | ev_erase (key : CURL).

(** The operations that reach the [Multi], in order. *)
Fixpoint executed (posted : list (Easy.t * Handler)) (evs : list event) : list op :=
  match evs with
  | [] => []
  | ev_AsyncPerform easy handler :: evs' =>
      executed (post_AsyncPerform easy handler posted) evs'
  | ev_run n res :: evs' =>
      match posted !! n with
      | Some (easy, handler) =>
          op_AsyncPerform easy handler res :: executed (delete n posted) evs'
      | None => executed posted evs'
      end
  | ev_discard n :: evs' =>
      match posted !! n with
      | Some _ => executed (delete n posted) evs'
      | None => executed posted evs'
      end
  | ev_Complete key ec :: evs' => op_Complete key ec :: executed posted evs'
  | ev_erase key :: evs' => op_erase key :: executed posted evs'
  end.

(** The function objects that were never run: those the executor
    destroyed and those still waiting at the end. *)
Fixpoint never_run (posted : list (Easy.t * Handler)) (evs : list event)
    : list (Easy.t * Handler) :=
  match evs with
  | [] => posted
  | ev_AsyncPerform easy handler :: evs' =>
      never_run (post_AsyncPerform easy handler posted) evs'
  | ev_run n res :: evs' =>
      match posted !! n with
      | Some _ => never_run (delete n posted) evs'
      | None => never_run posted evs'
      end
  | ev_discard n :: evs' =>
      match posted !! n with
      | Some f => f :: never_run (delete n posted) evs'
      | None => never_run posted evs'
      end
  | ev_Complete _ _ :: evs' => never_run posted evs'
  | ev_erase _ :: evs' => never_run posted evs'
  end.

Definition holds (handler : Handler) (f : Easy.t * Handler) : bool :=
  Nat.eqb f.2 handler.

Definition is_call_with (handler : Handler) (ev : event) : bool :=
  match ev with
  | ev_AsyncPerform _ h => Nat.eqb h handler
  | _ => false
  end.

(** How many calls of [AsyncPerform] carry [handler]. *)
Definition calls (handler : Handler) (evs : list event) : nat :=
  count (is_call_with handler) evs.

(** ** Runs on concrete inputs *)

Example Complete_fresh :
  w_log (exec (Complete (ec_curle 0) (PerformHandler_ctor 5%N 9%N 1%nat)) World_init)
  = [curl_multi_remove_handle 9%N 5%N; call_handler 1%nat (ec_curle 0);
     write_m_handled 5%N 1%nat true].
Proof. reflexivity. Qed.

Example AsyncPerform_accepted :
  w_log (exec (AsyncPerform 100%N (Easy.mk 5%N) 1%nat CURLM_OK (Multi_ctor 0 9%N)) World_init)
  = [curl_easy_setopt 5%N 20163 fn_OpenSocketCb;
     curl_easy_setopt 5%N 10164 (data_Multi 100%N);
     curl_easy_setopt 5%N 20208 fn_CloseSocketCb;
     curl_easy_setopt 5%N 10209 (data_Multi 100%N);
     curl_multi_add_handle 9%N 5%N 0].
Proof. reflexivity. Qed.

Example Multi_dtor_one_pending :
  performed
    (m ← AsyncPerform 100%N (Easy.mk 5%N) 1%nat CURLM_OK (Multi_ctor 0 9%N) ;
     Multi_dtor m) World_init
  = [curl_easy_setopt 5%N 20163 fn_OpenSocketCb;
     curl_easy_setopt 5%N 10164 (data_Multi 100%N);
     curl_easy_setopt 5%N 20208 fn_CloseSocketCb;
     curl_easy_setopt 5%N 10209 (data_Multi 100%N);
     curl_multi_add_handle 9%N 5%N 0;
     curl_multi_remove_handle 9%N 5%N;
     call_handler 1%nat (cancellation 0);
     write_m_handled 5%N 1%nat true;
     curl_multi_cleanup 9%N].
Proof. vm_compute. reflexivity. Qed.

Example Cancel_two_pending :
  let launch2 :=
    m1 ← AsyncPerform 100%N (Easy.mk 5%N) 1%nat CURLM_OK (Multi_ctor 0 9%N) ;
    AsyncPerform 100%N (Easy.mk 6%N) 2%nat CURLM_OK m1 in
  (eval (Cancel CURLM_OUT_OF_MEMORY (eval launch2 World_init)) (exec launch2 World_init)).1
  = 2%nat
  ∧ count is_cancel_call
      (performed (Cancel CURLM_OUT_OF_MEMORY (eval launch2 World_init))
         (exec launch2 World_init))
    = 2%nat.
Proof. vm_compute. split; reflexivity. Qed.

Example Cancel_easy_twice :
  let m1 := eval (AsyncPerform 100%N (Easy.mk 5%N) 1%nat CURLM_OK (Multi_ctor 0 9%N))
              World_init in
  let first := Cancel_easy (Easy.mk 5%N) CURLM_OK m1 in
  (eval first World_init).1 = true
  ∧ performed first World_init
    = [curl_multi_remove_handle 9%N 5%N; call_handler 1%nat (cancellation 0);
       write_m_handled 5%N 1%nat true]
  ∧ (eval (Cancel_easy (Easy.mk 5%N) CURLM_OK (eval first World_init).2)
       (exec first World_init)).1 = false.
Proof. vm_compute. repeat split; reflexivity. Qed.

Example erase_unhandled_entry :
  performed
    (m1 ← AsyncPerform 100%N (Easy.mk 5%N) 1%nat CURLM_OK (Multi_ctor 0 9%N) ;
     entry_erase 5%N m1) (mkWorld [] ∅)
  = setopt_actions 100%N 5%N
    ++ [curl_multi_add_handle 9%N 5%N 0;
        curl_multi_remove_handle 9%N 5%N;
        call_handler 1%nat operation_aborted;
        write_m_handled 5%N 1%nat true].
Proof. vm_compute. reflexivity. Qed.

(** ** What each computation returns and appends to the log *)

Lemma appended_nil w : appended [] w = w.
Proof. destruct w; unfold appended; simpl. by rewrite app_nil_r. Qed.

Lemma appended_appended l1 l2 w :
  appended l2 (appended l1 w) = appended (l1 ++ l2) w.
Proof. unfold appended; simpl. by rewrite app_assoc. Qed.

Lemma performed_appended {A} (c : M A) (w : World) (a : A) (l : list action) :
  c w = (a, appended l w) → performed c w = l.
Proof.
  intros E. unfold performed, exec. rewrite E. simpl. apply drop_app_length.
Qed.

Lemma emit_run a w : emit a w = (tt, appended [a] w).
Proof. reflexivity. Qed.

Lemma Complete_run ec self w :
  Complete ec self w = (completed self, appended (Complete_actions ec self) w).
Proof.
  unfold Complete, completed, Complete_actions.
  destruct (Handled self); simpl.
  - by rewrite appended_nil.
  - unfold appended, SetHandled, emit, mbind, M_bind, mret, M_ret; simpl.
    by rewrite <- !app_assoc.
Qed.

Lemma completed_Handled self : Handled (completed self) = true.
Proof. unfold completed. by destruct (Handled self) eqn:E. Qed.

Lemma completed_m_handler self : m_handler (completed self) = m_handler self.
Proof. unfold completed. by destruct (Handled self). Qed.

Lemma Complete_actions_completed ec self :
  Complete_actions ec (completed self) = [].
Proof. unfold Complete_actions. by rewrite completed_Handled. Qed.

Lemma completed_completed self : completed (completed self) = completed self.
Proof. unfold completed at 1. by rewrite completed_Handled. Qed.

Lemma PerformHandler_dtor_run self w :
  PerformHandler_dtor self w
  = (tt, appended (Complete_actions operation_aborted self) w).
Proof.
  unfold PerformHandler_dtor.
  destruct (Handled self) eqn:E; simpl.
  - unfold Complete_actions. rewrite E. by rewrite appended_nil.
  - unfold mbind, M_bind. by rewrite Complete_run.
Qed.

Lemma Complete_each_run ec l w :
  Complete_each ec l w
  = (map (λ e, (e.1, completed e.2)) l,
     appended (flat_map (λ e, Complete_actions ec e.2) l) w).
Proof.
  revert w. induction l as [|[key h] l IH]; intros w; simpl.
  - by rewrite appended_nil.
  - unfold mbind, M_bind. rewrite Complete_run, IH. simpl.
    by rewrite appended_appended.
Qed.

Lemma destroy_each_run l w :
  destroy_each l w
  = (tt, appended (flat_map (λ e, Complete_actions operation_aborted e.2) l) w).
Proof.
  revert w. induction l as [|[key h] l IH]; intros w; simpl.
  - by rewrite appended_nil.
  - unfold mbind, M_bind. rewrite PerformHandler_dtor_run, IH.
    by rewrite appended_appended.
Qed.

Lemma destroy_each_completed l :
  flat_map (λ e : N * PerformHandler, Complete_actions operation_aborted e.2)
    (map (λ e, (e.1, completed e.2)) l) = [].
Proof.
  induction l as [|[key h] l IH]; simpl; [done|].
  by rewrite Complete_actions_completed, IH.
Qed.

Lemma destroy_members_run self w :
  destroy_members self w
  = (tt, appended (cleanup_actions self ++
                   flat_map (λ e, Complete_actions operation_aborted e.2)
                     (map_to_list (m_easyHandlerMap self))) w).
Proof.
  unfold destroy_members, cleanup_actions, mbind, M_bind.
  destruct (operator_bool self).
  - by rewrite emit_run, destroy_each_run, appended_appended.
  - unfold mret, M_ret. by rewrite destroy_each_run.
Qed.

Lemma set_easyHandlerMap_id self : set_easyHandlerMap (m_easyHandlerMap self) self = self.
Proof. by destruct self. Qed.

Lemma AsyncPerform_run this easy handler res self w :
  AsyncPerform this easy handler res self w
  = let key := Easy.GetNativeHandle easy in
    let h := PerformHandler_ctor key (GetNativeHandle self) handler in
    let w1 := registering this key (GetNativeHandle self) res w in
    if negb (Z.eqb res CURLM_OK) then
      (self, appended (Complete_actions (ec_curlm res) h) w1)
    else
      match m_easyHandlerMap self !! key with
      | None => (set_easyHandlerMap (<[key := h]> (m_easyHandlerMap self)) self, w1)
      | Some _ => (self, appended (Complete_actions operation_aborted h) w1)
      end.
Proof.
  unfold AsyncPerform, Easy.SetOption, emplace.
  destruct (negb (Z.eqb res CURLM_OK)).
  - unfold mbind, M_bind, emit, store_easyopt, appended, registering, setopt_actions.
    destruct (N.eqb (Easy.GetNativeHandle easy) nullptr); simpl;
      by rewrite <- !app_assoc.
  - destruct (m_easyHandlerMap self !! Easy.GetNativeHandle easy) eqn:E.
    + unfold mbind, M_bind, emit, store_easyopt, appended, registering,
        setopt_actions.
      destruct (N.eqb (Easy.GetNativeHandle easy) nullptr); simpl;
        rewrite set_easyHandlerMap_id; by rewrite <- !app_assoc.
    + unfold mbind, M_bind, emit, store_easyopt, mret, M_ret, registering,
        setopt_actions.
      destruct (N.eqb (Easy.GetNativeHandle easy) nullptr); simpl;
        by rewrite <- !app_assoc.
Qed.

(** ** The shape of the log *)

Lemma performed_grown {A} (c : M A) (w : World) a l o :
  c w = (a, mkWorld (w_log w ++ l) o) → performed c w = l.
Proof.
  intros E. unfold performed, exec. rewrite E. simpl. apply drop_app_length.
Qed.

Lemma Complete_shaped_app l1 l2 :
  Complete_shaped l1 = true → Complete_shaped l2 = true →
  Complete_shaped (l1 ++ l2) = true.
Proof.
  remember (length l1) as n eqn:Hn. revert l1 Hn.
  induction n as [n IH] using lt_wf_ind. intros l1 Hn H1 H2.
  destruct l1 as [|a l1]; [done|].
  destruct a as [e o v|m e r|m e|h ec|e h b|m]; simpl in H1 |- *;
    try discriminate;
    try (apply (IH (length l1)); [subst n; simpl; lia|done|done|done]).
  destruct l1 as [|[| | |h ec| |] l1]; try discriminate.
  destruct l1 as [|[| | | |e' h' [|]|] l1]; try discriminate.
  simpl. apply andb_prop in H1 as [H1 H3]. rewrite H1. simpl.
  apply (IH (length l1)); [subst n; simpl; lia|done|done|done].
Qed.

Lemma Complete_actions_shaped ec self :
  Complete_shaped (Complete_actions ec self) = true.
Proof.
  unfold Complete_actions. destruct (Handled self); simpl; [done|].
  unfold GetEasyHandle. by rewrite N.eqb_refl, Nat.eqb_refl.
Qed.

Lemma flat_map_Complete_actions_shaped ec (l : list (N * PerformHandler)) :
  Complete_shaped (flat_map (λ e, Complete_actions ec e.2) l) = true.
Proof.
  induction l as [|e l IH]; simpl; [done|].
  apply Complete_shaped_app; [apply Complete_actions_shaped|done].
Qed.

Lemma shaped_appended {A} (c : M A) :
  (∀ w, ∃ a l, c w = (a, appended l w) ∧ Complete_shaped l = true) → shaped c.
Proof. intros H w. destruct (H w) as (a & l & E & S). by exists a, l, (w_easyopt w). Qed.

Lemma shaped_bind {A B} (c : M A) (f : A → M B) :
  shaped c → (∀ a, shaped (f a)) → shaped (c ≫= f).
Proof.
  intros Hc Hf w. destruct (Hc w) as (a & l & o & E & S).
  destruct (Hf a (mkWorld (w_log w ++ l) o)) as (b & l' & o' & E' & S').
  exists b, (l ++ l'), o'. split; [|by apply Complete_shaped_app].
  unfold mbind, M_bind. rewrite E, E'. simpl. by rewrite app_assoc.
Qed.

Lemma shaped_ret {A} (a : A) : shaped (mret a).
Proof. intros [l o]. exists a, [], o. simpl. by rewrite app_nil_r. Qed.

Lemma shaped_performed {A} (c : M A) w :
  shaped c → Complete_shaped (performed c w) = true.
Proof.
  intros H. destruct (H w) as (a & l & o & E & S).
  by rewrite (performed_grown _ _ _ _ _ E).
Qed.

Lemma PerformHandler_dtor_shaped self : shaped (PerformHandler_dtor self).
Proof.
  apply shaped_appended. intros w. eexists _, _.
  split; [apply PerformHandler_dtor_run|apply Complete_actions_shaped].
Qed.

Lemma destroy_members_shaped self : shaped (destroy_members self).
Proof.
  apply shaped_appended. intros w. eexists _, _.
  split; [apply destroy_members_run|].
  apply Complete_shaped_app; [|apply flat_map_Complete_actions_shaped].
  unfold cleanup_actions. by destruct (operator_bool self).
Qed.

Lemma AsyncPerform_shaped this easy handler res self :
  shaped (AsyncPerform this easy handler res self).
Proof.
  intros w. rewrite AsyncPerform_run. cbv zeta.
  set (key := Easy.GetNativeHandle easy).
  set (h := PerformHandler_ctor key (GetNativeHandle self) handler).
  assert (P : Complete_shaped
                (setopt_actions this key
                 ++ [curl_multi_add_handle (GetNativeHandle self) key res]) = true)
    by done.
  destruct (negb (Z.eqb res CURLM_OK)).
  - eexists _, _, _. split.
    + unfold appended, registering. simpl. by rewrite <- app_assoc.
    + apply Complete_shaped_app; [exact P|apply Complete_actions_shaped].
  - destruct (m_easyHandlerMap self !! key).
    + eexists _, _, _. split.
      * unfold appended, registering. simpl. by rewrite <- app_assoc.
      * apply Complete_shaped_app; [exact P|apply Complete_actions_shaped].
    + eexists _, _, _. split; [reflexivity|exact P].
Qed.

Lemma entry_Complete_run key ec self w :
  entry_Complete key ec self w
  = match m_easyHandlerMap self !! key with
    | None => (self, w)
    | Some h => (set_easyHandlerMap (<[key := completed h]> (m_easyHandlerMap self)) self,
                 appended (Complete_actions ec h) w)
    end.
Proof.
  unfold entry_Complete. destruct (m_easyHandlerMap self !! key); [|done].
  unfold mbind, M_bind. by rewrite Complete_run.
Qed.

Lemma entry_erase_run key self w :
  entry_erase key self w
  = match m_easyHandlerMap self !! key with
    | None => (self, w)
    | Some h => (set_easyHandlerMap (delete key (m_easyHandlerMap self)) self,
                 appended (Complete_actions operation_aborted h) w)
    end.
Proof.
  unfold entry_erase. destruct (m_easyHandlerMap self !! key); [|done].
  unfold mbind, M_bind. by rewrite PerformHandler_dtor_run.
Qed.

Lemma run_op_shaped this o self : shaped (run_op this o self).
Proof.
  destruct o as [easy handler res|key ec|key]; simpl.
  - apply AsyncPerform_shaped.
  - apply shaped_appended. intros w. rewrite entry_Complete_run.
    destruct (m_easyHandlerMap self !! key).
    + eexists _, _. split; [done|apply Complete_actions_shaped].
    + exists self, []. by rewrite appended_nil.
  - apply shaped_appended. intros w. rewrite entry_erase_run.
    destruct (m_easyHandlerMap self !! key).
    + eexists _, _. split; [done|apply Complete_actions_shaped].
    + exists self, []. by rewrite appended_nil.
Qed.

Lemma run_shaped this ops self : shaped (run this ops self).
Proof.
  revert self. induction ops as [|o ops IH]; intros self; simpl.
  - apply shaped_ret.
  - apply shaped_bind; [apply run_op_shaped|done].
Qed.

Lemma lifetime_shaped this ops self : shaped (lifetime this ops self).
Proof.
  apply shaped_bind; [apply run_shaped|]. intros a. apply destroy_members_shaped.
Qed.

(** ** PerformHandler: Complete and the destructor *)

(** C2.  [Complete] on a handler that is already handled returns it and
    leaves the world as it was; on any other handler it unregisters the
    easy handle from the multi handle, then calls the handler with [ec],
    then writes [m_handled = true], in that order and nothing else.  A
    second [Complete] after a first does nothing.  In the log of the
    destructor of a handler, of the posted body of [AsyncPerform], of the
    destruction of the members of [Multi], and of a whole life of a
    [Multi], every unregistration, call of a handler and write of
    [m_handled] stands in such a run of three. *)
Theorem Complete_idempotent_only_path
    (ec ec' : error_code) (self : PerformHandler) (w : World)
    (this : ptr) (easy : Easy.t) (handler : Handler) (res : CURLMcode)
    (m : Multi) (ops : list op) :
  Complete ec self w
  = (if Handled self then (self, w)
     else (mkPerformHandler (m_easyHandle self) (m_multiHandle self) true
             (m_handler self),
           appended
             [curl_multi_remove_handle (GetMultiHandle self) (GetEasyHandle self);
              call_handler (m_handler self) ec;
              write_m_handled (m_easyHandle self) (m_handler self) true] w))
  ∧ (self' ← Complete ec self ; Complete ec' self') w = Complete ec self w
  ∧ Handled (eval (Complete ec self) w) = true
  ∧ Complete_shaped (performed (PerformHandler_dtor self) w) = true
  ∧ Complete_shaped (performed (AsyncPerform this easy handler res m) w) = true
  ∧ Complete_shaped (performed (destroy_members m) w) = true
  ∧ Complete_shaped (performed (lifetime this ops m) w) = true.
Proof.
  repeat split.
  - rewrite Complete_run. unfold completed, Complete_actions.
    destruct (Handled self); [by rewrite appended_nil|done].
  - unfold mbind, M_bind. rewrite Complete_run, Complete_run.
    by rewrite Complete_actions_completed, appended_nil, completed_completed.
  - unfold eval. rewrite Complete_run. apply completed_Handled.
  - apply shaped_performed, PerformHandler_dtor_shaped.
  - apply shaped_performed, AsyncPerform_shaped.
  - apply shaped_performed, destroy_members_shaped.
  - apply shaped_performed, lifetime_shaped.
Qed.

(** C3.  The destructor of a handler whose [m_handled] is still false
    completes it with [asio::error::operation_aborted], a cancellation
    result: it unregisters the easy handle and calls the handler once.
    The destructor of a handled handler does nothing. *)
Theorem PerformHandler_dtor_backstop (self : PerformHandler) (w : World) :
  PerformHandler_dtor self w
  = (if Handled self then (tt, w)
     else (tt, exec (Complete operation_aborted self) w))
  ∧ performed (PerformHandler_dtor self) w
    = (if Handled self then []
       else [curl_multi_remove_handle (GetMultiHandle self) (GetEasyHandle self);
             call_handler (m_handler self) operation_aborted;
             write_m_handled (m_easyHandle self) (m_handler self) true])
  ∧ invocations (m_handler self) (performed (PerformHandler_dtor self) w)
    = (if Handled self then 0%nat else 1%nat)
  ∧ is_cancellation operation_aborted = true.
Proof.
  assert (P : performed (PerformHandler_dtor self) w
              = Complete_actions operation_aborted self)
    by (eapply performed_appended, PerformHandler_dtor_run).
  repeat split.
  - rewrite PerformHandler_dtor_run. unfold exec. rewrite Complete_run.
    unfold Complete_actions. destruct (Handled self); [by rewrite appended_nil|done].
  - rewrite P. unfold Complete_actions. by destruct (Handled self).
  - rewrite P. unfold Complete_actions, invocations.
    destruct (Handled self); simpl; [done|]. by rewrite Nat.eqb_refl.
Qed.

(** ** Counting calls of handlers *)

Lemma count_app {A} (p : A → bool) (l1 l2 : list A) :
  count p (l1 ++ l2) = (count p l1 + count p l2)%nat.
Proof. induction l1 as [|a l1 IH]; simpl; [done|]. rewrite IH. lia. Qed.

Lemma count_Permutation {A} (p : A → bool) (l1 l2 : list A) :
  l1 ≡ₚ l2 → count p l1 = count p l2.
Proof. induction 1; simpl; lia. Qed.

Lemma count_le_length {A} (p : A → bool) (l : list A) :
  (count p l ≤ length l)%nat.
Proof. induction l as [|a l IH]; simpl; [done|]. destruct (p a); lia. Qed.

Lemma count_all {A} (p : A → bool) (l : list A) :
  (∀ a, a ∈ l → p a = true) → count p l = length l.
Proof.
  induction l as [|a l IH]; intros H; simpl; [done|].
  rewrite (H a) by constructor. rewrite IH; [done|].
  intros b Hb. apply H. by constructor.
Qed.

Lemma invocations_Complete_actions handler ec (key : N) (h : PerformHandler) :
  invocations handler (Complete_actions ec h)
  = if is_pending handler (key, h) then 1%nat else 0%nat.
Proof.
  unfold invocations, Complete_actions, is_pending. simpl.
  destruct (Handled h); simpl; [done|].
  destruct (Nat.eqb (m_handler h) handler); done.
Qed.

Lemma invocations_flat_map handler ec (l : list (N * PerformHandler)) :
  invocations handler (flat_map (λ e, Complete_actions ec e.2) l)
  = count (is_pending handler) l.
Proof.
  induction l as [|[key h] l IH]; simpl; [done|].
  unfold invocations in *. rewrite count_app, IH.
  by rewrite <- (invocations_Complete_actions handler ec key h).
Qed.

Lemma pending_insert handler key h self :
  m_easyHandlerMap self !! key = None →
  pending handler (set_easyHandlerMap (<[key := h]> (m_easyHandlerMap self)) self)
  = ((if is_pending handler (key, h) then 1 else 0) + pending handler self)%nat.
Proof.
  intros E. unfold pending. simpl.
  by rewrite (count_Permutation _ _ _ (map_to_list_insert _ _ h E)).
Qed.

Lemma pending_delete handler key h self :
  m_easyHandlerMap self !! key = Some h →
  pending handler self
  = ((if is_pending handler (key, h) then 1 else 0)
     + pending handler (set_easyHandlerMap (delete key (m_easyHandlerMap self)) self))%nat.
Proof.
  intros E. unfold pending. simpl.
  by rewrite <- (count_Permutation _ _ _ (map_to_list_delete _ _ _ E)).
Qed.

Lemma pending_replace handler key h h' self :
  m_easyHandlerMap self !! key = Some h →
  (pending handler (set_easyHandlerMap (<[key := h']> (m_easyHandlerMap self)) self)
   + (if is_pending handler (key, h) then 1 else 0)
   = pending handler self + (if is_pending handler (key, h') then 1 else 0))%nat.
Proof.
  intros E. rewrite (pending_delete handler key h self E).
  unfold pending. simpl. rewrite <- insert_delete_eq.
  rewrite (count_Permutation _ _ _
             (map_to_list_insert (delete key (m_easyHandlerMap self)) key h'
                (lookup_delete_eq _ _))).
  simpl. lia.
Qed.

Lemma is_pending_completed handler key h :
  is_pending handler (key, completed h) = false.
Proof. unfold is_pending. simpl. by rewrite completed_Handled. Qed.

Lemma invocations_registering handler this easy multi res w :
  invocations handler (w_log (registering this easy multi res w))
  = invocations handler (w_log w).
Proof. unfold invocations, registering. simpl. rewrite count_app. simpl. lia. Qed.

Lemma invocations_appended handler l w :
  invocations handler (w_log (appended l w))
  = (invocations handler (w_log w) + invocations handler l)%nat.
Proof. unfold invocations, appended. simpl. apply count_app. Qed.

(** Every operation keeps the balance: calls made plus transfers pending
    grow by one exactly when the operation is a launch of that handler. *)
Lemma run_op_balance this o self w handler :
  (invocations handler (w_log (exec (run_op this o self) w))
   + pending handler (eval (run_op this o self) w)
   = invocations handler (w_log w) + pending handler self
     + (if launches_of handler o then 1 else 0))%nat.
Proof.
  unfold exec, eval. destruct o as [easy h0 res|key ec|key]; cbn [run_op launches_of].
  - rewrite AsyncPerform_run. cbv zeta.
    set (k := Easy.GetNativeHandle easy).
    set (h := PerformHandler_ctor k (GetNativeHandle self) h0).
    assert (F : (if is_pending handler (k, h) then 1%nat else 0%nat)
                = if Nat.eqb h0 handler then 1%nat else 0%nat) by done.
    destruct (negb (Z.eqb res CURLM_OK)); cbn [fst snd].
    + rewrite invocations_appended, invocations_registering.
      rewrite (invocations_Complete_actions handler _ k h), F. lia.
    + destruct (m_easyHandlerMap self !! k) eqn:E; cbn [fst snd].
      * rewrite invocations_appended, invocations_registering.
        rewrite (invocations_Complete_actions handler _ k h), F. lia.
      * rewrite invocations_registering, (pending_insert _ _ _ _ E), F. lia.
  - rewrite entry_Complete_run.
    destruct (m_easyHandlerMap self !! key) as [h|] eqn:E; cbn [fst snd]; [|lia].
    rewrite invocations_appended.
    rewrite (invocations_Complete_actions handler ec key h).
    pose proof (pending_replace handler key h (completed h) self E) as P.
    rewrite is_pending_completed in P. lia.
  - rewrite entry_erase_run.
    destruct (m_easyHandlerMap self !! key) as [h|] eqn:E; cbn [fst snd]; [|lia].
    rewrite invocations_appended.
    rewrite (invocations_Complete_actions handler _ key h).
    rewrite (pending_delete handler key h self E). lia.
Qed.

Lemma run_balance this ops self w handler :
  (invocations handler (w_log (exec (run this ops self) w))
   + pending handler (eval (run this ops self) w)
   = invocations handler (w_log w) + pending handler self
     + launches handler ops)%nat.
Proof.
  revert self w. induction ops as [|o ops IH]; intros self w; simpl.
  - unfold launches, exec, eval, mret, M_ret. simpl. lia.
  - pose proof (run_op_balance this o self w handler) as B.
    unfold exec, eval, mbind, M_bind in *.
    destruct (run_op this o self w) as [self' w'] eqn:E. cbn [fst snd] in B.
    specialize (IH self' w'). unfold launches in *. cbn [count]. lia.
Qed.

Lemma destroy_members_balance self w handler :
  invocations handler (w_log (exec (destroy_members self) w))
  = (invocations handler (w_log w) + pending handler self)%nat.
Proof.
  unfold exec. rewrite destroy_members_run. cbn [snd].
  rewrite invocations_appended. unfold invocations at 2. rewrite count_app.
  fold (invocations handler
          (flat_map (λ e : N * PerformHandler, Complete_actions operation_aborted e.2)
             (map_to_list (m_easyHandlerMap self)))).
  rewrite invocations_flat_map. unfold pending, cleanup_actions.
  destruct (operator_bool self); simpl; lia.
Qed.

Lemma lifetime_balance this ops self w handler :
  invocations handler (w_log (exec (lifetime this ops self) w))
  = (invocations handler (w_log w) + pending handler self
     + launches handler ops)%nat.
Proof.
  pose proof (run_balance this ops self w handler) as B.
  unfold lifetime, exec, eval, mbind, M_bind in *.
  destruct (run this ops self w) as [self' w'] eqn:E. cbn [fst snd] in B.
  pose proof (destroy_members_balance self' w' handler) as D.
  unfold exec in D. lia.
Qed.

Lemma shaped_log {A} (c : M A) w :
  shaped c → w_log (exec c w) = w_log w ++ performed c w.
Proof.
  intros H. destruct (H w) as (a & l & o & E & _).
  rewrite (performed_grown _ _ _ _ _ E). unfold exec. by rewrite E.
Qed.

Lemma shaped_invocations {A} (c : M A) w handler :
  shaped c →
  invocations handler (w_log (exec c w))
  = (invocations handler (w_log w) + invocations handler (performed c w))%nat.
Proof. intros H. rewrite (shaped_log c w H). apply count_app. Qed.

Lemma pending_Multi_ctor handler executor init :
  pending handler (Multi_ctor executor init) = 0%nat.
Proof. unfold pending, Multi_ctor. simpl. by rewrite map_to_list_empty. Qed.

(** ** Exactly one completion for each launch *)

(** Over the operations that reach a [Multi], from its construction
    through any sequence of executed launches, of calls of [Complete] on
    registry entries with any code and of erasures of entries, to the
    destruction of its members, every handler is called exactly as many
    times as a launch carrying it was executed; at every moment before,
    the calls made and the transfers still pending add up to those
    launches. *)
Theorem exactly_one_completion_per_launch
    (this : ptr) (executor : nat) (init : CURLM) (ops : list op) (w : World)
    (handler : Handler) :
  invocations handler (performed (lifetime this ops (Multi_ctor executor init)) w)
  = launches handler ops
  ∧ (invocations handler (performed (run this ops (Multi_ctor executor init)) w)
     + pending handler (eval (run this ops (Multi_ctor executor init)) w)
     = launches handler ops)%nat.
Proof.
  split.
  - pose proof (lifetime_balance this ops (Multi_ctor executor init) w handler) as B.
    rewrite (shaped_invocations _ _ _ (lifetime_shaped _ _ _)) in B.
    rewrite pending_Multi_ctor in B. lia.
  - pose proof (run_balance this ops (Multi_ctor executor init) w handler) as B.
    rewrite (shaped_invocations _ _ _ (run_shaped _ _ _)) in B.
    rewrite pending_Multi_ctor in B. lia.
Qed.

(** ** Calls of AsyncPerform and executed launches *)

Lemma count_list_delete {A} (p : A → bool) (l : list A) (n : nat) (x : A) :
  l !! n = Some x →
  count p l = ((if p x then 1 else 0) + count p (delete n l))%nat.
Proof.
  revert n. induction l as [|a l IH]; intros n E; [done|].
  destruct n as [|n]; simpl in *.
  - by injection E as ->.
  - rewrite (IH n E). lia.
Qed.

(** Every call of [AsyncPerform] ends either as an executed launch or as
    a function object that was never run. *)
Lemma executed_balance handler posted evs :
  (launches handler (executed posted evs)
   + count (holds handler) (never_run posted evs)
   = count (holds handler) posted + calls handler evs)%nat.
Proof.
  revert posted. unfold launches, calls.
  induction evs as [|ev evs IH]; intros posted; [simpl; lia|].
  destruct ev as [easy h|n res|n|key ec|key]; cbn [executed never_run count].
  - rewrite IH. unfold post_AsyncPerform. rewrite count_app. simpl.
    unfold holds at 2. simpl. lia.
  - destruct (posted !! n) as [[easy h]|] eqn:E.
    + cbn [count]. rewrite (count_list_delete (holds handler) posted n _ E).
      unfold holds at 2. cbn [launches_of snd is_call_with].
      specialize (IH (delete n posted)). lia.
    + specialize (IH posted). simpl. lia.
  - destruct (posted !! n) as [f|] eqn:E.
    + cbn [count]. rewrite (count_list_delete (holds handler) posted n _ E).
      specialize (IH (delete n posted)). simpl. lia.
    + specialize (IH posted). simpl. lia.
  - cbn [count launches_of is_call_with]. specialize (IH posted). lia.
  - cbn [count launches_of is_call_with]. specialize (IH posted). lia.
Qed.

(** C1, as the code has it.  A call of [AsyncPerform] only posts a
    function object; the handler is called exactly once for each call
    whose function object the executor runs, whichever path completes
    the transfer: the rejected registration, a [Complete] on the registry
    entry with any code, the erasure of the entry or the destruction of
    the members.  The calls of [AsyncPerform] are the executed launches
    and the function objects never run; a function object never run
    leaves its handler uncalled.  A handler that calls [AsyncPerform]
    from within its own call posts as any other caller does. *)
Theorem exactly_one_completion_per_executed_launch
    (this : ptr) (executor : nat) (init : CURLM) (evs : list event) (w : World)
    (handler : Handler) :
  invocations handler
    (performed (lifetime this (executed [] evs) (Multi_ctor executor init)) w)
  = launches handler (executed [] evs)
  ∧ (launches handler (executed [] evs) + count (holds handler) (never_run [] evs)
     = calls handler evs)%nat
  ∧ (invocations handler
       (performed (lifetime this (executed [] evs) (Multi_ctor executor init)) w)
     + count (holds handler) (never_run [] evs)
     = calls handler evs)%nat
  ∧ (invocations handler
       (performed (run this (executed [] evs) (Multi_ctor executor init)) w)
     + pending handler (eval (run this (executed [] evs) (Multi_ctor executor init)) w)
     = launches handler (executed [] evs))%nat.
Proof.
  pose proof (executed_balance handler [] evs) as E. simpl in E.
  assert (L : invocations handler
                (performed (lifetime this (executed [] evs)
                              (Multi_ctor executor init)) w)
              = launches handler (executed [] evs)).
  { pose proof (lifetime_balance this (executed [] evs) (Multi_ctor executor init)
                  w handler) as B.
    rewrite (shaped_invocations _ _ _ (lifetime_shaped _ _ _)) in B.
    rewrite pending_Multi_ctor in B. lia. }
  split; [exact L|]. split; [exact E|]. split; [lia|].
  pose proof (run_balance this (executed [] evs) (Multi_ctor executor init) w handler)
    as B.
  rewrite (shaped_invocations _ _ _ (run_shaped _ _ _)) in B.
  rewrite pending_Multi_ctor in B. lia.
Qed.

(** C1, as stated, fails.  [AsyncPerform] is called for easy handle 5 with
    handler 1 and the executor never runs the posted function object:
    over the whole life of the [Multi], its destruction included,
    handler 1 is not called.  So it is when the executor destroys the
    function object of handler 1 and runs that of handler 2. *)
Lemma AsyncPerform_never_run_never_completes :
  let evs := [ev_AsyncPerform (Easy.mk 5%N) 1%nat] in
  let evs' := [ev_AsyncPerform (Easy.mk 5%N) 1%nat; ev_AsyncPerform (Easy.mk 6%N) 2%nat;
               ev_discard 0; ev_run 0 CURLM_OK] in
  calls 1%nat evs = 1%nat
  ∧ never_run [] evs = [(Easy.mk 5%N, 1%nat)]
  ∧ invocations 1%nat
      (performed (lifetime 100%N (executed [] evs) (Multi_ctor 0 9%N)) World_init)
    = 0%nat
  ∧ calls 1%nat evs' = 1%nat
  ∧ invocations 1%nat
      (performed (lifetime 100%N (executed [] evs') (Multi_ctor 0 9%N)) World_init)
    = 0%nat
  ∧ invocations 2%nat
      (performed (lifetime 100%N (executed [] evs') (Multi_ctor 0 9%N)) World_init)
    = 1%nat.
Proof. cbv zeta. repeat split; vm_compute; reflexivity. Qed.

(** ** Cancellation and destruction *)

Lemma Cancel_run error self w :
  Cancel error self w
  = ((size (m_easyHandlerMap self), set_easyHandlerMap ∅ self),
     appended (flat_map (λ e, Complete_actions (cancellation error) e.2)
                 (map_to_list (m_easyHandlerMap self))) w).
Proof.
  unfold Cancel, mbind, M_bind.
  rewrite Complete_each_run, destroy_each_run, destroy_each_completed.
  by rewrite appended_nil.
Qed.

Lemma Cancel_easy_run easy error self w :
  Cancel_easy easy error self w
  = match m_easyHandlerMap self !! Easy.GetNativeHandle easy with
    | None => ((false, self), w)
    | Some h =>
        ((true, set_easyHandlerMap
                  (delete (Easy.GetNativeHandle easy) (m_easyHandlerMap self)) self),
         appended (Complete_actions (cancellation error) h) w)
    end.
Proof.
  unfold Cancel_easy.
  destruct (m_easyHandlerMap self !! Easy.GetNativeHandle easy); [|done].
  unfold mbind, M_bind. rewrite Complete_run, PerformHandler_dtor_run.
  by rewrite Complete_actions_completed, appended_nil.
Qed.

Lemma Multi_dtor_run self w :
  Multi_dtor self w
  = (tt, appended (flat_map (λ e, Complete_actions (cancellation CURLM_OK) e.2)
                     (map_to_list (m_easyHandlerMap self))
                   ++ cleanup_actions self) w).
Proof.
  unfold Multi_dtor, mbind, M_bind. rewrite Cancel_run, destroy_members_run.
  simpl. rewrite map_to_list_empty. simpl.
  by rewrite app_nil_r, appended_appended.
Qed.

Lemma Complete_actions_unhandled ec (e : N * PerformHandler) :
  Handled e.2 = false → Complete_actions ec e.2 = forced_completion ec e.
Proof. intros H. unfold Complete_actions. by rewrite H. Qed.

Lemma flat_map_Complete_actions_unhandled ec (l : list (N * PerformHandler)) :
  (∀ e, e ∈ l → Handled e.2 = false) →
  flat_map (λ e, Complete_actions ec e.2) l = flat_map (forced_completion ec) l.
Proof.
  induction l as [|e l IH]; intros H; simpl; [done|].
  rewrite Complete_actions_unhandled by (apply H; constructor).
  rewrite IH; [done|]. intros e' He'. apply H. by constructor.
Qed.

Lemma count_flat_map_Complete_actions (p : action → bool) ec
    (l : list (N * PerformHandler)) :
  (∀ e, count p (Complete_actions ec e.2) = if is_unhandled e then 1%nat else 0%nat) →
  count p (flat_map (λ e, Complete_actions ec e.2) l) = count is_unhandled l.
Proof.
  intros H. induction l as [|e l IH]; simpl; [done|].
  by rewrite count_app, H, IH.
Qed.

Lemma count_calls_Complete_actions ec (e : N * PerformHandler) :
  count is_call (Complete_actions ec e.2) = if is_unhandled e then 1%nat else 0%nat.
Proof. unfold Complete_actions, is_unhandled. by destruct (Handled e.2). Qed.

Lemma count_removes_Complete_actions ec (e : N * PerformHandler) :
  count is_remove (Complete_actions ec e.2) = if is_unhandled e then 1%nat else 0%nat.
Proof. unfold Complete_actions, is_unhandled. by destruct (Handled e.2). Qed.

Lemma count_cancel_calls_Complete_actions ec (e : N * PerformHandler) :
  is_cancellation ec = true →
  count is_cancel_call (Complete_actions ec e.2)
  = if is_unhandled e then 1%nat else 0%nat.
Proof.
  intros C. unfold Complete_actions, is_unhandled.
  destruct (Handled e.2); simpl; [done|]. by rewrite C.
Qed.

Lemma count_cleanup_actions (p : action → bool) self :
  (∀ multi, p (curl_multi_cleanup multi) = false) →
  count p (cleanup_actions self) = 0%nat.
Proof.
  intros H. unfold cleanup_actions. destruct (operator_bool self); simpl; [|done].
  by rewrite H.
Qed.

(** The cancellations of Multi.cpp, as the spec has them, are such
    operations on entries: they keep the same balance. *)
Lemma Cancel_easy_as_ops this easy error self w :
  run this [op_Complete (Easy.GetNativeHandle easy) (cancellation error);
            op_erase (Easy.GetNativeHandle easy)] self w
  = ((Cancel_easy easy error self w).1.2, (Cancel_easy easy error self w).2).
Proof.
  cbn [run run_op]. unfold mbind, M_bind.
  rewrite entry_Complete_run, Cancel_easy_run.
  destruct (m_easyHandlerMap self !! Easy.GetNativeHandle easy) as [h|] eqn:E.
  - rewrite entry_erase_run. cbn [m_easyHandlerMap set_easyHandlerMap fst snd].
    rewrite lookup_insert_eq, Complete_actions_completed, appended_nil.
    by rewrite delete_insert_eq.
  - rewrite entry_erase_run, E. done.
Qed.

Lemma Multi_dtor_balance self w handler :
  invocations handler (w_log (exec (Multi_dtor self) w))
  = (invocations handler (w_log w) + pending handler self)%nat.
Proof.
  unfold exec. rewrite Multi_dtor_run. cbn [snd].
  rewrite invocations_appended. unfold invocations at 2. rewrite count_app.
  fold (invocations handler
          (flat_map (λ e : N * PerformHandler,
                       Complete_actions (cancellation CURLM_OK) e.2)
             (map_to_list (m_easyHandlerMap self)))).
  rewrite invocations_flat_map. unfold pending, cleanup_actions.
  destruct (operator_bool self); simpl; lia.
Qed.

Lemma lifetime_Multi_dtor_balance this ops self w handler :
  invocations handler
    (w_log (exec (self' ← run this ops self ; Multi_dtor self') w))
  = (invocations handler (w_log w) + pending handler self
     + launches handler ops)%nat.
Proof.
  pose proof (run_balance this ops self w handler) as B.
  unfold exec, eval, mbind, M_bind in *.
  destruct (run this ops self w) as [self' w'] eqn:E. cbn [fst snd] in B.
  pose proof (Multi_dtor_balance self' w' handler) as D.
  unfold exec in D. lia.
Qed.

(** ** A launch the engine rejects *)

Lemma AsyncPerform_rejected_run this easy handler res self w :
  res ≠ CURLM_OK →
  AsyncPerform this easy handler res self w
  = (self,
     appended
       [curl_multi_remove_handle (GetNativeHandle self) (Easy.GetNativeHandle easy);
        call_handler handler (ec_curlm res);
        write_m_handled (Easy.GetNativeHandle easy) handler true]
       (registering this (Easy.GetNativeHandle easy) (GetNativeHandle self) res w)).
Proof.
  intros H. rewrite AsyncPerform_run. cbv zeta.
  apply Z.eqb_neq in H. by rewrite H.
Qed.

Lemma AsyncPerform_rejected_performed this easy handler res self w :
  res ≠ CURLM_OK →
  performed (AsyncPerform this easy handler res self) w
  = setopt_actions this (Easy.GetNativeHandle easy)
    ++ [curl_multi_add_handle (GetNativeHandle self) (Easy.GetNativeHandle easy) res;
        curl_multi_remove_handle (GetNativeHandle self) (Easy.GetNativeHandle easy);
        call_handler handler (ec_curlm res);
        write_m_handled (Easy.GetNativeHandle easy) handler true].
Proof.
  intros H. eapply performed_grown. rewrite (AsyncPerform_rejected_run _ _ _ _ _ _ H).
  unfold appended, registering. simpl. by rewrite <- !app_assoc.
Qed.

(** C4, as the code has it.  When the engine answers
    [curl_multi_add_handle] with a code other than [CURLM_OK], the posted
    body calls the handler once, within the step, with that code, and it
    leaves the registry exactly as it found it: the step adds no entry.
    An easy handle without an entry before the step has none after it. *)
Theorem AsyncPerform_rejected_adds_no_entry
    (this : ptr) (easy : Easy.t) (handler : Handler) (res : CURLMcode)
    (self : Multi) (w : World) :
  res ≠ CURLM_OK →
  performed (AsyncPerform this easy handler res self) w
  = setopt_actions this (Easy.GetNativeHandle easy)
    ++ [curl_multi_add_handle (GetNativeHandle self) (Easy.GetNativeHandle easy) res;
        curl_multi_remove_handle (GetNativeHandle self) (Easy.GetNativeHandle easy);
        call_handler handler (ec_curlm res);
        write_m_handled (Easy.GetNativeHandle easy) handler true]
  ∧ invocations handler (performed (AsyncPerform this easy handler res self) w) = 1%nat
  ∧ eval (AsyncPerform this easy handler res self) w = self
  ∧ m_easyHandlerMap (eval (AsyncPerform this easy handler res self) w)
      !! Easy.GetNativeHandle easy
    = m_easyHandlerMap self !! Easy.GetNativeHandle easy.
Proof.
  intros H. rewrite (AsyncPerform_rejected_performed _ _ _ _ _ _ H).
  unfold eval. rewrite (AsyncPerform_rejected_run _ _ _ _ _ _ H).
  repeat split. unfold invocations. simpl. by rewrite Nat.eqb_refl.
Qed.

Lemma AsyncPerform_rejected_adds_no_entry_witness :
  CURLM_OUT_OF_MEMORY ≠ CURLM_OK
  ∧ eval (AsyncPerform 100%N (Easy.mk 5%N) 1%nat CURLM_OUT_OF_MEMORY
            (Multi_ctor 0 9%N)) World_init
    = Multi_ctor 0 9%N.
Proof.
  split; [done|].
  apply (AsyncPerform_rejected_adds_no_entry 100%N (Easy.mk 5%N) 1%nat
           CURLM_OUT_OF_MEMORY (Multi_ctor 0 9%N) World_init).
  done.
Defined.

(** C4, as stated, fails.  Easy handle 5 is launched and accepted; it is
    launched again while the first transfer is pending and the engine
    answers [CURLM_ADDED_ALREADY].  The second handler is called with that
    code, and the registry still holds an entry for easy handle 5: the one
    of the first launch. *)
Lemma AsyncPerform_rejected_entry_retained :
  let m1 := eval (AsyncPerform 100%N (Easy.mk 5%N) 1%nat CURLM_OK (Multi_ctor 0 9%N))
              World_init in
  let w1 := exec (AsyncPerform 100%N (Easy.mk 5%N) 1%nat CURLM_OK (Multi_ctor 0 9%N))
              World_init in
  let second := AsyncPerform 100%N (Easy.mk 5%N) 2%nat CURLM_ADDED_ALREADY m1 in
  CURLM_ADDED_ALREADY ≠ CURLM_OK
  ∧ call_handler 2%nat (ec_curlm CURLM_ADDED_ALREADY) ∈ performed second w1
  ∧ m_easyHandlerMap (eval second w1) !! 5%N = Some (PerformHandler_ctor 5%N 9%N 1%nat)
  ∧ m_easyHandlerMap (eval second w1) !! 5%N ≠ None.
Proof.
  cbv zeta. split; [done|]. split; [|split].
  - vm_compute. do 6 apply list_elem_of_further. apply list_elem_of_here.
  - vm_compute. reflexivity.
  - vm_compute. discriminate.
Qed.

(** C10, as the code has it.  The posted body of [AsyncPerform] sets the
    open-socket and close-socket callbacks and their data pointers on the
    easy handle before it calls [curl_multi_add_handle].  When the engine
    rejects the registration the four options stay on an easy handle that
    is not null, and [Complete] calls [curl_multi_remove_handle] for the
    easy handle whether or not the engine held it: after the step the
    engine does not hold it.  An easy handle that did not already carry
    the options is not what it was before the step. *)
Theorem AsyncPerform_rejected_not_neutral
    (this : ptr) (easy : Easy.t) (handler : Handler) (res : CURLMcode)
    (self : Multi) (w : World) :
  res ≠ CURLM_OK →
  Easy.GetNativeHandle easy ≠ nullptr →
  performed (AsyncPerform this easy handler res self) w
  = [curl_easy_setopt (Easy.GetNativeHandle easy) CURLOPT_OPENSOCKETFUNCTION
       fn_OpenSocketCb;
     curl_easy_setopt (Easy.GetNativeHandle easy) CURLOPT_OPENSOCKETDATA
       (data_Multi this);
     curl_easy_setopt (Easy.GetNativeHandle easy) CURLOPT_CLOSESOCKETFUNCTION
       fn_CloseSocketCb;
     curl_easy_setopt (Easy.GetNativeHandle easy) CURLOPT_CLOSESOCKETDATA
       (data_Multi this);
     curl_multi_add_handle (GetNativeHandle self) (Easy.GetNativeHandle easy) res;
     curl_multi_remove_handle (GetNativeHandle self) (Easy.GetNativeHandle easy);
     call_handler handler (ec_curlm res);
     write_m_handled (Easy.GetNativeHandle easy) handler true]
  ∧ socket_options_set this (Easy.GetNativeHandle easy)
      (exec (AsyncPerform this easy handler res self) w)
  ∧ w_easyopt (exec (AsyncPerform this easy handler res self) w)
    = w_easyopt (registering this (Easy.GetNativeHandle easy) (GetNativeHandle self)
                   res w)
  ∧ (w_easyopt w !! (Easy.GetNativeHandle easy, CURLOPT_CLOSESOCKETDATA)
       ≠ Some (data_Multi this) →
     w_easyopt (exec (AsyncPerform this easy handler res self) w) ≠ w_easyopt w)
  ∧ (∀ before,
       tracked (GetNativeHandle self) (Easy.GetNativeHandle easy) before
         (performed (AsyncPerform this easy handler res self) w) = false).
Proof.
  intros H Z. rewrite (AsyncPerform_rejected_performed _ _ _ _ _ _ H).
  unfold exec. rewrite (AsyncPerform_rejected_run _ _ _ _ _ _ H).
  apply N.eqb_neq in Z.
  split; [done|]. split; [|split; [done|split]].
  - unfold socket_options_set, appended, registering. simpl. rewrite Z.
    repeat split; by simplify_map_eq.
  - intros N E. apply N. rewrite <- E.
    unfold appended, registering. simpl. rewrite Z. by simplify_map_eq.
  - intros before. simpl. by rewrite !N.eqb_refl.
Qed.

Lemma AsyncPerform_rejected_not_neutral_witness :
  CURLM_OUT_OF_MEMORY ≠ CURLM_OK
  ∧ Easy.GetNativeHandle (Easy.mk 5%N) ≠ nullptr
  ∧ socket_options_set 100%N 5%N
      (exec (AsyncPerform 100%N (Easy.mk 5%N) 1%nat CURLM_OUT_OF_MEMORY
               (Multi_ctor 0 9%N)) World_init)
  ∧ w_easyopt (exec (AsyncPerform 100%N (Easy.mk 5%N) 1%nat CURLM_OUT_OF_MEMORY
                       (Multi_ctor 0 9%N)) World_init)
    ≠ w_easyopt World_init.
Proof.
  assert (H : CURLM_OUT_OF_MEMORY ≠ CURLM_OK) by done.
  assert (Z : Easy.GetNativeHandle (Easy.mk 5%N) ≠ nullptr) by done.
  split; [exact H|]. split; [exact Z|].
  destruct (AsyncPerform_rejected_not_neutral 100%N (Easy.mk 5%N) 1%nat
              CURLM_OUT_OF_MEMORY (Multi_ctor 0 9%N) World_init H Z)
    as (_ & S & _ & D & _).
  split; [exact S|]. apply D. done.
Defined.

(** C10, as stated, fails twice.  Easy handle 5 is launched and accepted,
    so the engine holds it; it is launched again and the engine answers
    [CURLM_ADDED_ALREADY].  The rejected step calls
    [curl_multi_remove_handle] for a handle that had been added, and the
    engine holds it no longer, while the first launch is still pending in
    the registry.  And a rejected launch of the null easy handle leaves
    no option set: libcurl keeps nothing for a null handle. *)
Lemma AsyncPerform_rejected_unregisters_added_handle :
  let first := AsyncPerform 100%N (Easy.mk 5%N) 1%nat CURLM_OK (Multi_ctor 0 9%N) in
  let m1 := eval first World_init in
  let w1 := exec first World_init in
  let second := AsyncPerform 100%N (Easy.mk 5%N) 2%nat CURLM_ADDED_ALREADY m1 in
  let null := AsyncPerform 100%N (Easy.mk nullptr) 3%nat CURLM_BAD_EASY_HANDLE
                (Multi_ctor 0 9%N) in
  CURLM_ADDED_ALREADY ≠ CURLM_OK
  ∧ tracked 9%N 5%N false (w_log w1) = true
  ∧ curl_multi_remove_handle 9%N 5%N ∈ performed second w1
  ∧ tracked 9%N 5%N false (w_log (exec second w1)) = false
  ∧ pending 1%nat (eval second w1) = 1%nat
  ∧ CURLM_BAD_EASY_HANDLE ≠ CURLM_OK
  ∧ ¬ socket_options_set 100%N nullptr (exec null World_init)
  ∧ w_easyopt (exec null World_init) = w_easyopt World_init.
Proof.
  cbv zeta. split; [done|]. split; [vm_compute; reflexivity|].
  split; [vm_compute; do 5 apply list_elem_of_further; apply list_elem_of_here|].
  split; [vm_compute; reflexivity|]. split; [vm_compute; reflexivity|].
  split; [done|]. split; [|vm_compute; reflexivity].
  intros (S & _). vm_compute in S. discriminate.
Qed.

(** ** Cancel *)

(** C5.  [Cancel] on a registry of K pending transfers returns K and
    empties the registry; for each entry it unregisters the easy handle,
    calls the handler with a cancellation result carrying [error] and
    marks it handled, and it does nothing else: K unregistrations, K
    calls, all of them cancellations, and each pending handler called as
    often as it was pending.  On an empty registry it returns zero and
    changes nothing. *)
Theorem Cancel_cancels_all_pending (error : CURLMcode) (self : Multi) (w : World) :
  (∀ key h, m_easyHandlerMap self !! key = Some h → Handled h = false) →
  Cancel error self w
  = ((size (m_easyHandlerMap self), set_easyHandlerMap ∅ self),
     appended (flat_map (forced_completion (cancellation error))
                 (map_to_list (m_easyHandlerMap self))) w)
  ∧ m_easyHandlerMap (eval (Cancel error self) w).2 = ∅
  ∧ count is_cancel_call (performed (Cancel error self) w)
    = size (m_easyHandlerMap self)
  ∧ count is_call (performed (Cancel error self) w) = size (m_easyHandlerMap self)
  ∧ count is_remove (performed (Cancel error self) w) = size (m_easyHandlerMap self)
  ∧ (∀ handler,
       invocations handler (performed (Cancel error self) w) = pending handler self)
  ∧ Cancel error (set_easyHandlerMap ∅ self) w
    = ((0%nat, set_easyHandlerMap ∅ self), w).
Proof.
  intros H.
  assert (U : ∀ e, e ∈ map_to_list (m_easyHandlerMap self) → Handled e.2 = false).
  { intros [key h] He. apply elem_of_map_to_list in He. by apply (H key h). }
  assert (A : count is_unhandled (map_to_list (m_easyHandlerMap self))
              = size (m_easyHandlerMap self)).
  { rewrite <- length_map_to_list. apply count_all.
    intros e He. unfold is_unhandled. by rewrite (U e He). }
  assert (P : performed (Cancel error self) w
              = flat_map (λ e, Complete_actions (cancellation error) e.2)
                  (map_to_list (m_easyHandlerMap self)))
    by (eapply performed_appended, Cancel_run).
  split; [|split; [|split; [|split; [|split; [|split]]]]].
  - rewrite Cancel_run. by rewrite (flat_map_Complete_actions_unhandled _ _ U).
  - unfold eval. by rewrite Cancel_run.
  - rewrite P, <- A. apply count_flat_map_Complete_actions.
    intros e. by apply count_cancel_calls_Complete_actions.
  - rewrite P, <- A. apply count_flat_map_Complete_actions.
    intros e. apply count_calls_Complete_actions.
  - rewrite P, <- A. apply count_flat_map_Complete_actions.
    intros e. apply count_removes_Complete_actions.
  - intros handler. rewrite P. apply invocations_flat_map.
  - rewrite Cancel_run. simpl. rewrite map_to_list_empty. simpl.
    by rewrite appended_nil.
Qed.

Lemma Cancel_cancels_all_pending_witness :
  let self :=
    mkMulti 0 (<[6%N := PerformHandler_ctor 6%N 9%N 2%nat]>
                 {[5%N := PerformHandler_ctor 5%N 9%N 1%nat]}) 9%N in
  (∀ key h, m_easyHandlerMap self !! key = Some h → Handled h = false)
  ∧ count is_cancel_call (performed (Cancel CURLM_OUT_OF_MEMORY self) World_init)
    = size (m_easyHandlerMap self).
Proof.
  cbv zeta.
  assert (H : ∀ key h,
            m_easyHandlerMap
              (mkMulti 0 (<[6%N := PerformHandler_ctor 6%N 9%N 2%nat]>
                            {[5%N := PerformHandler_ctor 5%N 9%N 1%nat]}) 9%N)
              !! key = Some h → Handled h = false).
  { intros key h E. simpl in E.
    apply lookup_insert_Some in E as [[_ <-]|[_ E]]; [reflexivity|].
    apply lookup_singleton_Some in E as [_ <-]. reflexivity. }
  split; [exact H|].
  apply (Cancel_cancels_all_pending CURLM_OUT_OF_MEMORY _ World_init H).
Defined.

(** C6.  [Cancel] for one easy handle: when the registry has an entry for
    it, that entry is completed with a cancellation result and erased,
    and the call returns true; when it has none, the call returns false
    and changes nothing.  No other entry is touched.  A second call for
    the same easy handle returns false, calls no handler and changes
    nothing. *)
Theorem Cancel_easy_found_once
    (easy : Easy.t) (error error' : CURLMcode) (self : Multi) (w : World) :
  Cancel_easy easy error self w
  = match m_easyHandlerMap self !! Easy.GetNativeHandle easy with
    | None => ((false, self), w)
    | Some h =>
        ((true, set_easyHandlerMap
                  (delete (Easy.GetNativeHandle easy) (m_easyHandlerMap self)) self),
         appended (Complete_actions (cancellation error) h) w)
    end
  ∧ m_easyHandlerMap (eval (Cancel_easy easy error self) w).2
    = delete (Easy.GetNativeHandle easy) (m_easyHandlerMap self)
  ∧ (eval (Cancel_easy easy error self) w).1
    = bool_decide (is_Some (m_easyHandlerMap self !! Easy.GetNativeHandle easy))
  ∧ Cancel_easy easy error' (eval (Cancel_easy easy error self) w).2
      (exec (Cancel_easy easy error self) w)
    = ((false, (eval (Cancel_easy easy error self) w).2),
       exec (Cancel_easy easy error self) w)
  ∧ performed
      (Cancel_easy easy error' (eval (Cancel_easy easy error self) w).2)
      (exec (Cancel_easy easy error self) w)
    = [].
Proof.
  assert (S : Cancel_easy easy error' (eval (Cancel_easy easy error self) w).2
                (exec (Cancel_easy easy error self) w)
              = ((false, (eval (Cancel_easy easy error self) w).2),
                 exec (Cancel_easy easy error self) w)).
  { unfold eval, exec. rewrite (Cancel_easy_run easy error self).
    destruct (m_easyHandlerMap self !! Easy.GetNativeHandle easy) eqn:E; simpl.
    - rewrite Cancel_easy_run. simpl. by rewrite lookup_delete_eq.
    - rewrite Cancel_easy_run. by rewrite E. }
  split; [apply Cancel_easy_run|]. split; [|split; [|split]].
  - unfold eval. rewrite Cancel_easy_run.
    destruct (m_easyHandlerMap self !! Easy.GetNativeHandle easy) eqn:E; simpl.
    + done.
    + symmetry. by apply delete_id.
  - unfold eval. rewrite Cancel_easy_run.
    destruct (m_easyHandlerMap self !! Easy.GetNativeHandle easy) eqn:E; simpl.
    + done.
    + done.
  - exact S.
  - eapply performed_appended. rewrite S. by rewrite appended_nil.
Qed.

(** ** Destruction of a Multi *)

(** C7.  The destructor of [Multi] cancels all: every entry of the
    registry that is not yet handled is unregistered and its handler is
    called with a cancellation result, each pending handler as often as
    it is pending, and the engine handle is cleaned up after.  After the
    destructor no transfer is pending.  The destruction of the members
    alone completes every handler still pending in the registry as
    well. *)
Theorem Multi_dtor_cancels_outstanding (self : Multi) (w : World) (handler : Handler) :
  performed (Multi_dtor self) w
  = flat_map (λ e, Complete_actions (cancellation CURLM_OK) e.2)
      (map_to_list (m_easyHandlerMap self))
    ++ cleanup_actions self
  ∧ invocations handler (performed (Multi_dtor self) w) = pending handler self
  ∧ count is_cancel_call (performed (Multi_dtor self) w)
    = count is_unhandled (map_to_list (m_easyHandlerMap self))
  ∧ count is_call (performed (Multi_dtor self) w)
    = count is_unhandled (map_to_list (m_easyHandlerMap self))
  ∧ count is_remove (performed (Multi_dtor self) w)
    = count is_unhandled (map_to_list (m_easyHandlerMap self))
  ∧ pending handler (eval (Cancel CURLM_OK self) w).2 = 0%nat
  ∧ invocations handler (performed (destroy_members self) w) = pending handler self.
Proof.
  assert (P : performed (Multi_dtor self) w
              = flat_map (λ e, Complete_actions (cancellation CURLM_OK) e.2)
                  (map_to_list (m_easyHandlerMap self))
                ++ cleanup_actions self)
    by (eapply performed_appended, Multi_dtor_run).
  rewrite P. split; [done|]. split; [|split; [|split; [|split; [|split]]]].
  - unfold invocations. rewrite count_app.
    rewrite (count_cleanup_actions (is_call_of handler)) by done.
    fold (invocations handler
            (flat_map (λ e : N * PerformHandler,
                         Complete_actions (cancellation CURLM_OK) e.2)
               (map_to_list (m_easyHandlerMap self)))).
    rewrite invocations_flat_map. unfold pending. lia.
  - rewrite count_app, (count_cleanup_actions is_cancel_call) by done.
    rewrite count_flat_map_Complete_actions; [lia|].
    intros e. by apply count_cancel_calls_Complete_actions.
  - rewrite count_app, (count_cleanup_actions is_call) by done.
    rewrite count_flat_map_Complete_actions; [lia|].
    intros e. apply count_calls_Complete_actions.
  - rewrite count_app, (count_cleanup_actions is_remove) by done.
    rewrite count_flat_map_Complete_actions; [lia|].
    intros e. apply count_removes_Complete_actions.
  - unfold eval. rewrite Cancel_run. unfold pending. simpl.
    by rewrite map_to_list_empty.
  - pose proof (destroy_members_balance self w handler) as B.
    rewrite (shaped_invocations _ _ _ (destroy_members_shaped _)) in B. lia.
Qed.

(** * Beyond the claims *)

(** ** What each operation adds to the log *)

Lemma performed_bind {A B} (c : M A) (f : A → M B) w :
  shaped c → (∀ a, shaped (f a)) →
  performed (c ≫= f) w = performed c w ++ performed (f (eval c w)) (exec c w).
Proof.
  intros Hc Hf. destruct (Hc w) as (a & l & o & E & _).
  destruct (Hf a (mkWorld (w_log w ++ l) o)) as (b & l' & o' & E' & _).
  assert (Eb : (c ≫= f) w = (b, mkWorld (w_log w ++ (l ++ l')) o')).
  { unfold mbind, M_bind. rewrite E, E'. simpl. by rewrite app_assoc. }
  rewrite (performed_grown _ _ _ _ _ Eb), (performed_grown _ _ _ _ _ E).
  unfold eval, exec. rewrite E. simpl.
  by rewrite (performed_grown _ _ _ _ _ E').
Qed.

Lemma AsyncPerform_performed this easy handler res self w :
  performed (AsyncPerform this easy handler res self) w
  = setopt_actions this (Easy.GetNativeHandle easy)
    ++ curl_multi_add_handle (GetNativeHandle self) (Easy.GetNativeHandle easy) res
       :: (if negb (Z.eqb res CURLM_OK) then
             Complete_actions (ec_curlm res)
               (PerformHandler_ctor (Easy.GetNativeHandle easy) (GetNativeHandle self)
                  handler)
           else
             match m_easyHandlerMap self !! Easy.GetNativeHandle easy with
             | None => []
             | Some _ =>
                 Complete_actions operation_aborted
                   (PerformHandler_ctor (Easy.GetNativeHandle easy)
                      (GetNativeHandle self) handler)
             end).
Proof.
  destruct (negb (Z.eqb res CURLM_OK)) eqn:R;
    [|destruct (m_easyHandlerMap self !! Easy.GetNativeHandle easy) eqn:E];
    eapply performed_grown; rewrite AsyncPerform_run; cbv zeta;
    rewrite R, ?E; unfold appended, registering; simpl;
    by rewrite <- ?app_assoc.
Qed.

Lemma AsyncPerform_eval this easy handler res self w :
  eval (AsyncPerform this easy handler res self) w
  = if negb (Z.eqb res CURLM_OK) then self
    else match m_easyHandlerMap self !! Easy.GetNativeHandle easy with
         | None =>
             set_easyHandlerMap
               (<[Easy.GetNativeHandle easy :=
                    PerformHandler_ctor (Easy.GetNativeHandle easy)
                      (GetNativeHandle self) handler]> (m_easyHandlerMap self)) self
         | Some _ => self
         end.
Proof.
  unfold eval. rewrite AsyncPerform_run. cbv zeta.
  destruct (negb (Z.eqb res CURLM_OK)); [done|].
  by destruct (m_easyHandlerMap self !! Easy.GetNativeHandle easy).
Qed.

Lemma AsyncPerform_easyopt this easy handler res self w :
  w_easyopt (exec (AsyncPerform this easy handler res self) w)
  = w_easyopt (registering this (Easy.GetNativeHandle easy) (GetNativeHandle self)
                 res w).
Proof.
  unfold exec. rewrite AsyncPerform_run. cbv zeta.
  destruct (negb (Z.eqb res CURLM_OK)); [done|].
  by destruct (m_easyHandlerMap self !! Easy.GetNativeHandle easy).
Qed.

Lemma entry_Complete_performed key ec self w :
  performed (entry_Complete key ec self) w
  = match m_easyHandlerMap self !! key with
    | None => []
    | Some h => Complete_actions ec h
    end.
Proof.
  destruct (m_easyHandlerMap self !! key) eqn:E;
    eapply performed_appended; rewrite entry_Complete_run, E;
    [done|by rewrite appended_nil].
Qed.

Lemma entry_erase_performed key self w :
  performed (entry_erase key self) w
  = match m_easyHandlerMap self !! key with
    | None => []
    | Some h => Complete_actions operation_aborted h
    end.
Proof.
  destruct (m_easyHandlerMap self !! key) eqn:E;
    eapply performed_appended; rewrite entry_erase_run, E;
    [done|by rewrite appended_nil].
Qed.

Lemma destroy_members_performed self w :
  performed (destroy_members self) w
  = cleanup_actions self
    ++ flat_map (λ e, Complete_actions operation_aborted e.2)
         (map_to_list (m_easyHandlerMap self)).
Proof. eapply performed_appended, destroy_members_run. Qed.

Lemma run_cons_performed this o ops self w :
  performed (run this (o :: ops) self) w
  = performed (run_op this o self) w
    ++ performed (run this ops (eval (run_op this o self) w))
         (exec (run_op this o self) w).
Proof.
  cbn [run]. apply performed_bind; [apply run_op_shaped|].
  intros a. apply run_shaped.
Qed.

Lemma lifetime_cons_performed this o ops self w :
  performed (lifetime this (o :: ops) self) w
  = performed (run_op this o self) w
    ++ performed (lifetime this ops (eval (run_op this o self) w))
         (exec (run_op this o self) w).
Proof.
  assert (E : ∀ w', lifetime this (o :: ops) self w'
                    = (run_op this o self ≫= lifetime this ops) w').
  { intros w'. unfold lifetime. cbn [run]. unfold mbind, M_bind.
    by destruct (run_op this o self w'). }
  unfold performed at 1, exec at 1. rewrite E.
  fold (exec (run_op this o self ≫= lifetime this ops) w).
  fold (performed (run_op this o self ≫= lifetime this ops) w).
  apply performed_bind; [apply run_op_shaped|].
  intros a. apply lifetime_shaped.
Qed.

Lemma lifetime_nil_performed this self w :
  performed (lifetime this [] self) w = performed (destroy_members self) w.
Proof. reflexivity. Qed.

(** ** A launch the engine accepts *)

(** X1.  A launch that the engine accepts, for an easy handle without an
    entry, makes the four option calls and [curl_multi_add_handle] and
    nothing else: no handler is called and nothing is unregistered.  The
    registry gains one entry, under the easy handle, whose handler is not
    handled and holds the easy handle, the native handle of the [Multi]
    and the caller's handler; no other entry changes. *)
Theorem AsyncPerform_accepted_registers
    (this : ptr) (easy : Easy.t) (handler : Handler) (self : Multi) (w : World) :
  m_easyHandlerMap self !! Easy.GetNativeHandle easy = None →
  performed (AsyncPerform this easy handler CURLM_OK self) w
  = setopt_actions this (Easy.GetNativeHandle easy)
    ++ [curl_multi_add_handle (GetNativeHandle self) (Easy.GetNativeHandle easy)
          CURLM_OK]
  ∧ m_easyHandlerMap (eval (AsyncPerform this easy handler CURLM_OK self) w)
    = <[Easy.GetNativeHandle easy :=
          mkPerformHandler (Easy.GetNativeHandle easy) (GetNativeHandle self) false
            handler]> (m_easyHandlerMap self)
  ∧ m_easyHandlerMap (eval (AsyncPerform this easy handler CURLM_OK self) w)
      !! Easy.GetNativeHandle easy
    = Some (mkPerformHandler (Easy.GetNativeHandle easy) (GetNativeHandle self) false
              handler)
  ∧ size (m_easyHandlerMap (eval (AsyncPerform this easy handler CURLM_OK self) w))
    = S (size (m_easyHandlerMap self))
  ∧ pending handler (eval (AsyncPerform this easy handler CURLM_OK self) w)
    = S (pending handler self)
  ∧ invocations handler (performed (AsyncPerform this easy handler CURLM_OK self) w)
    = 0%nat
  ∧ GetNativeHandle (eval (AsyncPerform this easy handler CURLM_OK self) w)
    = GetNativeHandle self.
Proof.
  intros E. rewrite AsyncPerform_performed, AsyncPerform_eval, E. simpl.
  split; [done|]. split; [done|]. split; [apply lookup_insert_eq|].
  split; [by apply map_size_insert_None|]. split; [|done].
  rewrite (pending_insert _ _ _ _ E). unfold is_pending. simpl.
  by rewrite Nat.eqb_refl.
Qed.

Lemma AsyncPerform_accepted_registers_witness :
  m_easyHandlerMap (mkMulti 0 ∅ 9%N) !! Easy.GetNativeHandle (Easy.mk 5%N) = None
  ∧ size (m_easyHandlerMap
            (eval (AsyncPerform 100%N (Easy.mk 5%N) 1%nat CURLM_OK (mkMulti 0 ∅ 9%N))
               World_init))
    = 1%nat.
Proof.
  assert (H : m_easyHandlerMap (mkMulti 0 ∅ 9%N)
                !! Easy.GetNativeHandle (Easy.mk 5%N) = None) by reflexivity.
  split; [exact H|].
  destruct (AsyncPerform_accepted_registers 100%N (Easy.mk 5%N) 1%nat
              (mkMulti 0 ∅ 9%N) World_init H) as (_ & _ & _ & S & _).
  exact S.
Defined.

(** X2.  A launch for an easy handle that already has an entry never
    replaces the entry: the registry stays as it was, whatever the engine
    answers.  The handler of the new launch is called once within the
    step, with the engine's code when the engine rejected and with
    [operation_aborted] when it accepted, and the step calls
    [curl_multi_remove_handle] for the easy handle once. *)
Theorem AsyncPerform_key_taken
    (this : ptr) (easy : Easy.t) (handler : Handler) (res : CURLMcode)
    (self : Multi) (w : World) (h0 : PerformHandler) :
  m_easyHandlerMap self !! Easy.GetNativeHandle easy = Some h0 →
  eval (AsyncPerform this easy handler res self) w = self
  ∧ performed (AsyncPerform this easy handler res self) w
    = setopt_actions this (Easy.GetNativeHandle easy)
      ++ [curl_multi_add_handle (GetNativeHandle self) (Easy.GetNativeHandle easy) res;
          curl_multi_remove_handle (GetNativeHandle self) (Easy.GetNativeHandle easy);
          call_handler handler
            (if negb (Z.eqb res CURLM_OK) then ec_curlm res else operation_aborted);
          write_m_handled (Easy.GetNativeHandle easy) handler true]
  ∧ (∀ h', invocations h' (performed (AsyncPerform this easy handler res self) w)
           = if Nat.eqb handler h' then 1%nat else 0%nat)
  ∧ count is_remove (performed (AsyncPerform this easy handler res self) w) = 1%nat.
Proof.
  intros E. rewrite AsyncPerform_performed, AsyncPerform_eval, E.
  destruct (negb (Z.eqb res CURLM_OK)); simpl.
  - repeat split. intros h'. unfold invocations. simpl.
    destruct (Nat.eqb handler h'); done.
  - repeat split. intros h'. unfold invocations. simpl.
    destruct (Nat.eqb handler h'); done.
Qed.

Lemma AsyncPerform_key_taken_witness :
  m_easyHandlerMap (mkMulti 0 {[5%N := PerformHandler_ctor 5%N 9%N 1%nat]} 9%N)
    !! Easy.GetNativeHandle (Easy.mk 5%N)
  = Some (PerformHandler_ctor 5%N 9%N 1%nat)
  ∧ eval (AsyncPerform 100%N (Easy.mk 5%N) 2%nat CURLM_OK
            (mkMulti 0 {[5%N := PerformHandler_ctor 5%N 9%N 1%nat]} 9%N)) World_init
    = mkMulti 0 {[5%N := PerformHandler_ctor 5%N 9%N 1%nat]} 9%N.
Proof.
  assert (H : m_easyHandlerMap
                (mkMulti 0 {[5%N := PerformHandler_ctor 5%N 9%N 1%nat]} 9%N)
                !! Easy.GetNativeHandle (Easy.mk 5%N)
              = Some (PerformHandler_ctor 5%N 9%N 1%nat)) by reflexivity.
  split; [exact H|].
  destruct (AsyncPerform_key_taken 100%N (Easy.mk 5%N) 2%nat CURLM_OK
              (mkMulti 0 {[5%N := PerformHandler_ctor 5%N 9%N 1%nat]} 9%N)
              World_init _ H) as (S & _).
  exact S.
Defined.

(** ** The registry stays well keyed *)

Lemma completed_m_easyHandle self : m_easyHandle (completed self) = m_easyHandle self.
Proof. unfold completed. by destruct (Handled self). Qed.

Lemma completed_m_multiHandle self : m_multiHandle (completed self) = m_multiHandle self.
Proof. unfold completed. by destruct (Handled self). Qed.

Lemma run_op_GetNativeHandle this o self w :
  GetNativeHandle (eval (run_op this o self) w) = GetNativeHandle self.
Proof.
  unfold eval. destruct o as [easy handler res|key ec|key]; cbn [run_op].
  - fold (eval (AsyncPerform this easy handler res self) w).
    rewrite AsyncPerform_eval.
    destruct (negb (Z.eqb res CURLM_OK)); [done|].
    by destruct (m_easyHandlerMap self !! Easy.GetNativeHandle easy).
  - rewrite entry_Complete_run. by destruct (m_easyHandlerMap self !! key).
  - rewrite entry_erase_run. by destruct (m_easyHandlerMap self !! key).
Qed.

Lemma run_op_well_keyed this o self w :
  well_keyed self → well_keyed (eval (run_op this o self) w).
Proof.
  intros W. unfold eval. destruct o as [easy handler res|key ec|key]; cbn [run_op].
  - fold (eval (AsyncPerform this easy handler res self) w).
    rewrite AsyncPerform_eval.
    destruct (negb (Z.eqb res CURLM_OK)); [done|].
    destruct (m_easyHandlerMap self !! Easy.GetNativeHandle easy) eqn:E; [done|].
    intros k h L. simpl in L.
    apply lookup_insert_Some in L as [[<- <-]|[_ L]]; [done|]. by apply W.
  - rewrite entry_Complete_run.
    destruct (m_easyHandlerMap self !! key) as [h0|] eqn:E; [|done].
    intros k h L. simpl in L.
    apply lookup_insert_Some in L as [[<- <-]|[_ L]]; [|by apply W].
    rewrite completed_m_easyHandle, completed_m_multiHandle. by apply W.
  - rewrite entry_erase_run.
    destruct (m_easyHandlerMap self !! key) as [h0|] eqn:E; [|done].
    intros k h L. simpl in L.
    apply lookup_delete_Some in L as [_ L]. by apply W.
Qed.

Lemma run_GetNativeHandle this ops self w :
  GetNativeHandle (eval (run this ops self) w) = GetNativeHandle self.
Proof.
  revert self w. induction ops as [|o ops IH]; intros self w; [done|].
  unfold eval in *. cbn [run]. unfold mbind, M_bind.
  pose proof (run_op_GetNativeHandle this o self w) as G. unfold eval in G.
  destruct (run_op this o self w) as [self' w']. simpl in G.
  by rewrite IH.
Qed.

Lemma run_well_keyed this ops self w :
  well_keyed self → well_keyed (eval (run this ops self) w).
Proof.
  revert self w. induction ops as [|o ops IH]; intros self w W; [done|].
  unfold eval in *. cbn [run]. unfold mbind, M_bind.
  pose proof (run_op_well_keyed this o self w W) as W'. unfold eval in W'.
  destruct (run_op this o self w) as [self' w']. simpl in W'.
  by apply IH.
Qed.

(** X3.  From a registry in which every entry is filed under the easy
    handle its handler holds, with the native handle of the [Multi] as its
    multi handle, any sequence of launches, completions and erasures
    leads to such a registry again, and to a [Multi] with the same native
    handle and the same validity. *)
Theorem registry_stays_well_keyed
    (this : ptr) (ops : list op) (self : Multi) (w : World) :
  well_keyed self →
  well_keyed (eval (run this ops self) w)
  ∧ GetNativeHandle (eval (run this ops self) w) = GetNativeHandle self
  ∧ operator_bool (eval (run this ops self) w) = operator_bool self.
Proof.
  intros W. split; [by apply run_well_keyed|].
  pose proof (run_GetNativeHandle this ops self w) as G.
  split; [done|]. unfold operator_bool. unfold GetNativeHandle in G. by rewrite G.
Qed.

Lemma well_keyed_empty executor native : well_keyed (mkMulti executor ∅ native).
Proof. intros key h L. simpl in L. by rewrite lookup_empty in L. Qed.

Lemma registry_stays_well_keyed_witness :
  well_keyed (mkMulti 0 ∅ 9%N)
  ∧ well_keyed
      (eval (run 100%N [op_AsyncPerform (Easy.mk 5%N) 1%nat CURLM_OK;
                        op_Complete 5%N (ec_curle 0)]
               (mkMulti 0 ∅ 9%N)) World_init).
Proof.
  split; [apply well_keyed_empty|].
  apply (registry_stays_well_keyed 100%N _ (mkMulti 0 ∅ 9%N) World_init).
  apply well_keyed_empty.
Defined.

(** ** The engine calls of a whole life *)

Lemma forallb_app_true {A} (p : A → bool) (l1 l2 : list A) :
  forallb p l1 = true → forallb p l2 = true → forallb p (l1 ++ l2) = true.
Proof. intros H1 H2. rewrite forallb_app. by rewrite H1, H2. Qed.

Lemma targets_Complete_actions ec h :
  forallb (targets (m_multiHandle h)) (Complete_actions ec h) = true.
Proof.
  unfold Complete_actions. destruct (Handled h); simpl; [done|].
  unfold GetMultiHandle. by rewrite N.eqb_refl.
Qed.

Lemma targets_setopt_actions multi this easy :
  forallb (targets multi) (setopt_actions this easy) = true.
Proof. done. Qed.

Lemma run_op_targets this o self w :
  well_keyed self →
  forallb (targets (GetNativeHandle self)) (performed (run_op this o self) w) = true.
Proof.
  intros W. destruct o as [easy handler res|key ec|key]; cbn [run_op].
  - rewrite AsyncPerform_performed. apply forallb_app_true; [done|].
    simpl. rewrite N.eqb_refl. simpl.
    destruct (negb (Z.eqb res CURLM_OK)).
    + apply (targets_Complete_actions _ (PerformHandler_ctor _ _ _)).
    + destruct (m_easyHandlerMap self !! Easy.GetNativeHandle easy); [|done].
      apply (targets_Complete_actions _ (PerformHandler_ctor _ _ _)).
  - rewrite entry_Complete_performed.
    destruct (m_easyHandlerMap self !! key) as [h|] eqn:E; [|done].
    destruct (W key h E) as [_ <-]. apply targets_Complete_actions.
  - rewrite entry_erase_performed.
    destruct (m_easyHandlerMap self !! key) as [h|] eqn:E; [|done].
    destruct (W key h E) as [_ <-]. apply targets_Complete_actions.
Qed.

Lemma destroy_members_targets self w :
  well_keyed self →
  forallb (targets (GetNativeHandle self)) (performed (destroy_members self) w) = true.
Proof.
  intros W. rewrite destroy_members_performed. apply forallb_app_true.
  - unfold cleanup_actions. destruct (operator_bool self); simpl; [|done].
    by rewrite N.eqb_refl.
  - assert (H : ∀ l : list (N * PerformHandler),
              (∀ e, e ∈ l → m_multiHandle e.2 = GetNativeHandle self) →
              forallb (targets (GetNativeHandle self))
                (flat_map (λ e, Complete_actions operation_aborted e.2) l) = true).
    { induction l as [|e l IH]; intros H; simpl; [done|].
      apply forallb_app_true.
      - rewrite <- (H e) by constructor. apply targets_Complete_actions.
      - apply IH. intros e' He'. apply H. by constructor. }
    apply H. intros [key h] He. apply elem_of_map_to_list in He.
    by destruct (W key h He).
Qed.

(** X4.  Over the whole life of a [Multi] whose registry is well keyed at
    the start, every [curl_multi_add_handle], [curl_multi_remove_handle]
    and [curl_multi_cleanup] names the native handle of that [Multi]: no
    transfer is ever registered with, or unregistered from, another multi
    handle. *)
Theorem engine_calls_name_own_handle
    (this : ptr) (ops : list op) (self : Multi) (w : World) :
  well_keyed self →
  forallb (targets (GetNativeHandle self)) (performed (lifetime this ops self) w)
  = true.
Proof.
  revert self w. induction ops as [|o ops IH]; intros self w W.
  - rewrite lifetime_nil_performed. by apply destroy_members_targets.
  - rewrite lifetime_cons_performed. apply forallb_app_true.
    + by apply run_op_targets.
    + rewrite <- (run_op_GetNativeHandle this o self w).
      apply IH. by apply run_op_well_keyed.
Qed.

Lemma engine_calls_name_own_handle_witness :
  well_keyed (mkMulti 0 ∅ 9%N)
  ∧ forallb (targets 9%N)
      (performed
         (lifetime 100%N [op_AsyncPerform (Easy.mk 5%N) 1%nat CURLM_OK;
                          op_AsyncPerform (Easy.mk 6%N) 2%nat CURLM_OUT_OF_MEMORY]
            (mkMulti 0 ∅ 9%N)) World_init)
    = true.
Proof.
  split; [apply well_keyed_empty|].
  apply (engine_calls_name_own_handle 100%N _ (mkMulti 0 ∅ 9%N) World_init).
  apply well_keyed_empty.
Defined.

(** ** Unregistrations follow registrations *)

Lemma registered_before_app seen l1 l2 :
  registered_before seen (l1 ++ l2)
  = registered_before seen l1 && registered_before (seen_after seen l1) l2.
Proof.
  revert seen. induction l1 as [|a l1 IH]; intros seen; [done|].
  destruct a; simpl; rewrite ?IH; try done. by rewrite andb_assoc.
Qed.

Lemma existsb_eqb_elem (x : N) (l : list N) :
  existsb (N.eqb x) l = true ↔ x ∈ l.
Proof.
  rewrite existsb_exists. split.
  - intros (y & Hy & E). apply N.eqb_eq in E. subst y. by apply list_elem_of_In.
  - intros H. exists x. split; [by apply list_elem_of_In|apply N.eqb_refl].
Qed.

Lemma seen_after_incl seen l x : x ∈ seen → x ∈ seen_after seen l.
Proof.
  revert seen. induction l as [|a l IH]; intros seen H; [done|].
  destruct a; simpl; try (by apply IH). apply IH. by constructor.
Qed.

Lemma seen_after_app seen l1 l2 :
  seen_after seen (l1 ++ l2) = seen_after (seen_after seen l1) l2.
Proof.
  revert seen. induction l1 as [|a l1 IH]; intros seen; [done|].
  destruct a; simpl; by rewrite ?IH.
Qed.

Lemma registered_before_Complete_actions seen ec h :
  m_easyHandle h ∈ seen →
  registered_before seen (Complete_actions ec h) = true
  ∧ seen_after seen (Complete_actions ec h) = seen.
Proof.
  intros H. unfold Complete_actions. destruct (Handled h); simpl; [done|].
  split; [|done]. unfold GetEasyHandle.
  apply existsb_eqb_elem in H. by rewrite H.
Qed.

Lemma registered_before_flat_map seen ec (l : list (N * PerformHandler)) :
  (∀ e, e ∈ l → m_easyHandle e.2 ∈ seen) →
  registered_before seen (flat_map (λ e, Complete_actions ec e.2) l) = true.
Proof.
  induction l as [|e l IH]; intros H; simpl; [done|].
  rewrite registered_before_app.
  destruct (registered_before_Complete_actions seen ec e.2) as [-> ->].
  - apply H. constructor.
  - apply IH. intros e' He'. apply H. by constructor.
Qed.

(** The easy handles of the registry have all been seen. *)
Lemma run_op_registered this o self w seen :
  well_keyed self →
  (∀ key, is_Some (m_easyHandlerMap self !! key) → key ∈ seen) →
  registered_before seen (performed (run_op this o self) w) = true
  ∧ (∀ key, is_Some (m_easyHandlerMap (eval (run_op this o self) w) !! key) →
            key ∈ seen_after seen (performed (run_op this o self) w)).
Proof.
  intros W S. destruct o as [easy handler res|key ec|key]; cbn [run_op].
  - rewrite AsyncPerform_performed, AsyncPerform_eval.
    set (k := Easy.GetNativeHandle easy).
    set (h := PerformHandler_ctor k (GetNativeHandle self) handler).
    assert (K : k ∈ k :: seen) by constructor.
    rewrite registered_before_app, seen_after_app. simpl.
    destruct (negb (Z.eqb res CURLM_OK)).
    + destruct (registered_before_Complete_actions (k :: seen) (ec_curlm res) h K)
        as [-> ->].
      split; [done|]. intros key Hk. apply list_elem_of_further. by apply S.
    + destruct (m_easyHandlerMap self !! k) eqn:E.
      * destruct (registered_before_Complete_actions (k :: seen) operation_aborted h K)
          as [-> ->].
        split; [done|]. intros key Hk. apply list_elem_of_further. by apply S.
      * split; [done|]. intros key Hk. simpl in Hk.
        destruct (decide (k = key)) as [<-|Hne]; [constructor|].
        rewrite lookup_insert_ne in Hk by done.
        apply list_elem_of_further. by apply S.
  - rewrite entry_Complete_performed. unfold eval. rewrite entry_Complete_run.
    destruct (m_easyHandlerMap self !! key) as [h|] eqn:E; [|by split].
    assert (K : m_easyHandle h ∈ seen).
    { destruct (W key h E) as [-> _]. apply S. by rewrite E. }
    destruct (registered_before_Complete_actions seen ec h K) as [-> ->].
    split; [done|]. intros k Hk. simpl in Hk.
    destruct (decide (key = k)) as [<-|Hne]; [apply S; by rewrite E|].
    rewrite lookup_insert_ne in Hk by done. by apply S.
  - rewrite entry_erase_performed. unfold eval. rewrite entry_erase_run.
    destruct (m_easyHandlerMap self !! key) as [h|] eqn:E; [|by split].
    assert (K : m_easyHandle h ∈ seen).
    { destruct (W key h E) as [-> _]. apply S. by rewrite E. }
    destruct (registered_before_Complete_actions seen operation_aborted h K)
      as [-> ->].
    split; [done|]. intros k Hk. simpl in Hk.
    apply S. destruct Hk as [x Hx]. apply lookup_delete_Some in Hx as [_ Hx]. eauto.
Qed.

Lemma lifetime_registered this ops self w seen :
  well_keyed self →
  (∀ key, is_Some (m_easyHandlerMap self !! key) → key ∈ seen) →
  registered_before seen (performed (lifetime this ops self) w) = true.
Proof.
  revert self w seen. induction ops as [|o ops IH]; intros self w seen W S.
  - rewrite lifetime_nil_performed, destroy_members_performed.
    rewrite registered_before_app.
    assert (C : registered_before seen (cleanup_actions self) = true
                ∧ seen_after seen (cleanup_actions self) = seen)
      by (unfold cleanup_actions; by destruct (operator_bool self)).
    destruct C as [-> ->]. simpl.
    apply registered_before_flat_map. intros [key h] He.
    apply elem_of_map_to_list in He. simpl.
    destruct (W key h He) as [-> _]. apply S. by rewrite He.
  - rewrite lifetime_cons_performed, registered_before_app.
    destruct (run_op_registered this o self w seen W S) as [-> S']. simpl.
    apply IH; [by apply run_op_well_keyed|done].
Qed.

(** X5.  Over the whole life of a [Multi] that starts with an empty
    registry, every [curl_multi_remove_handle] names an easy handle that
    an earlier [curl_multi_add_handle] of the same life named: the bridge
    never unregisters an easy handle that it did not first pass to the
    engine for registration. *)
Theorem unregistered_only_after_registration
    (this : ptr) (ops : list op) (executor : nat) (native : CURLM) (w : World) :
  registered_before []
    (performed (lifetime this ops (mkMulti executor ∅ native)) w) = true.
Proof.
  apply lifetime_registered; [apply well_keyed_empty|].
  intros key [h L]. simpl in L. by rewrite lookup_empty in L.
Qed.

Example registered_before_rejects_stray_remove :
  registered_before [] [curl_multi_remove_handle 9%N 5%N] = false
  ∧ registered_before []
      [curl_multi_add_handle 9%N 6%N 0; curl_multi_remove_handle 9%N 5%N] = false
  ∧ registered_before []
      [curl_multi_add_handle 9%N 5%N 3; curl_multi_remove_handle 9%N 5%N] = true.
Proof. repeat split. Qed.

(** ** One registration and one unregistration for each launch *)

Lemma count_map_insert (p : N * PerformHandler → bool) key h
    (map : gmap N PerformHandler) :
  map !! key = None →
  count p (map_to_list (<[key := h]> map))
  = ((if p (key, h) then 1 else 0) + count p (map_to_list map))%nat.
Proof. intros E. by rewrite (count_Permutation _ _ _ (map_to_list_insert _ _ h E)). Qed.

Lemma count_map_delete (p : N * PerformHandler → bool) key h
    (map : gmap N PerformHandler) :
  map !! key = Some h →
  count p (map_to_list map)
  = ((if p (key, h) then 1 else 0) + count p (map_to_list (delete key map)))%nat.
Proof. intros E. by rewrite <- (count_Permutation _ _ _ (map_to_list_delete _ _ _ E)). Qed.

Lemma count_map_replace (p : N * PerformHandler → bool) key h h'
    (map : gmap N PerformHandler) :
  map !! key = Some h →
  (count p (map_to_list (<[key := h']> map)) + (if p (key, h) then 1 else 0)
   = count p (map_to_list map) + (if p (key, h') then 1 else 0))%nat.
Proof.
  intros E. rewrite (count_map_delete p key h map E).
  rewrite <- insert_delete_eq.
  rewrite (count_map_insert p key h' (delete key map) (lookup_delete_eq _ _)). lia.
Qed.

Section Completions.

Variable p : action → bool.
Hypothesis p_Complete :
  ∀ ec h, count p (Complete_actions ec h) = if Handled h then 0%nat else 1%nat.
Hypothesis p_setopt : ∀ easy option val, p (curl_easy_setopt easy option val) = false.
Hypothesis p_add : ∀ multi easy res, p (curl_multi_add_handle multi easy res) = false.
Hypothesis p_cleanup : ∀ multi, p (curl_multi_cleanup multi) = false.

Lemma count_flat_map_completions ec (l : list (N * PerformHandler)) :
  count p (flat_map (λ e, Complete_actions ec e.2) l) = count is_unhandled l.
Proof.
  induction l as [|e l IH]; simpl; [done|].
  rewrite count_app, IH, p_Complete. unfold is_unhandled. by destruct (Handled e.2).
Qed.

Lemma run_op_completions this o self w :
  (count p (performed (run_op this o self) w)
   + unhandled (eval (run_op this o self) w)
   = unhandled self + (if is_launch o then 1 else 0))%nat.
Proof.
  unfold unhandled. destruct o as [easy handler res|key ec|key]; cbn [run_op is_launch].
  - rewrite AsyncPerform_performed, AsyncPerform_eval, count_app.
    assert (S : count p (setopt_actions this (Easy.GetNativeHandle easy)) = 0%nat)
      by (unfold setopt_actions; simpl; by rewrite !p_setopt).
    rewrite S. cbn [count]. rewrite p_add.
    destruct (negb (Z.eqb res CURLM_OK)).
    + rewrite p_Complete. simpl. lia.
    + destruct (m_easyHandlerMap self !! Easy.GetNativeHandle easy) eqn:E.
      * rewrite p_Complete. simpl. lia.
      * cbn [m_easyHandlerMap set_easyHandlerMap].
        rewrite (count_map_insert _ _ _ _ E). simpl. lia.
  - rewrite entry_Complete_performed. unfold eval. rewrite entry_Complete_run.
    destruct (m_easyHandlerMap self !! key) as [h|] eqn:E; simpl; [|lia].
    pose proof (count_map_replace is_unhandled key h (completed h) _ E) as R.
    rewrite p_Complete. unfold is_unhandled in *. simpl in R.
    rewrite completed_Handled in R.
    destruct (Handled h); simpl in *; lia.
  - rewrite entry_erase_performed. unfold eval. rewrite entry_erase_run.
    destruct (m_easyHandlerMap self !! key) as [h|] eqn:E; simpl; [|lia].
    rewrite (count_map_delete is_unhandled key h _ E). rewrite p_Complete.
    unfold is_unhandled. simpl. destruct (Handled h); simpl; lia.
Qed.

Lemma lifetime_completions this ops self w :
  count p (performed (lifetime this ops self) w)
  = (unhandled self + count is_launch ops)%nat.
Proof.
  revert self w. induction ops as [|o ops IH]; intros self w.
  - rewrite lifetime_nil_performed, destroy_members_performed, count_app.
    rewrite count_flat_map_completions. unfold unhandled, cleanup_actions.
    destruct (operator_bool self); simpl; rewrite ?p_cleanup; lia.
  - rewrite lifetime_cons_performed, count_app, IH.
    pose proof (run_op_completions this o self w) as B. cbn [count]. lia.
Qed.

End Completions.

Lemma count_adds_Complete_actions ec h : count is_add (Complete_actions ec h) = 0%nat.
Proof. unfold Complete_actions. by destruct (Handled h). Qed.

Lemma count_adds_flat_map ec (l : list (N * PerformHandler)) :
  count is_add (flat_map (λ e, Complete_actions ec e.2) l) = 0%nat.
Proof.
  induction l as [|e l IH]; simpl; [done|].
  by rewrite count_app, IH, count_adds_Complete_actions.
Qed.

Lemma run_op_adds this o self w :
  count is_add (performed (run_op this o self) w) = if is_launch o then 1%nat else 0%nat.
Proof.
  destruct o as [easy handler res|key ec|key]; cbn [run_op is_launch].
  - rewrite AsyncPerform_performed, count_app. simpl.
    destruct (negb (Z.eqb res CURLM_OK)); [done|].
    by destruct (m_easyHandlerMap self !! Easy.GetNativeHandle easy).
  - rewrite entry_Complete_performed.
    destruct (m_easyHandlerMap self !! key); [apply count_adds_Complete_actions|done].
  - rewrite entry_erase_performed.
    destruct (m_easyHandlerMap self !! key); [apply count_adds_Complete_actions|done].
Qed.

Lemma lifetime_adds this ops self w :
  count is_add (performed (lifetime this ops self) w) = count is_launch ops.
Proof.
  revert self w. induction ops as [|o ops IH]; intros self w.
  - rewrite lifetime_nil_performed, destroy_members_performed, count_app.
    rewrite count_adds_flat_map. unfold cleanup_actions.
    by destruct (operator_bool self).
  - rewrite lifetime_cons_performed, count_app, IH, run_op_adds. done.
Qed.

(** X6.  Over the whole life of a [Multi] the bridge calls
    [curl_multi_add_handle] once for each launch, and it calls
    [curl_multi_remove_handle], and a handler, once for each launch and
    once for each entry that was unhandled at the start: every
    registration attempt, accepted or rejected, is matched by exactly one
    unregistration and one completion. *)
Theorem one_registration_one_unregistration_per_launch
    (this : ptr) (ops : list op) (self : Multi) (w : World) :
  count is_add (performed (lifetime this ops self) w) = count is_launch ops
  ∧ count is_remove (performed (lifetime this ops self) w)
    = (unhandled self + count is_launch ops)%nat
  ∧ count is_call (performed (lifetime this ops self) w)
    = (unhandled self + count is_launch ops)%nat.
Proof.
  split; [apply lifetime_adds|]. split.
  - apply lifetime_completions; try done.
    intros ec h. unfold Complete_actions. by destruct (Handled h).
  - apply lifetime_completions; try done.
    intros ec h. unfold Complete_actions. by destruct (Handled h).
Qed.

(** ** The socket options of easy handles *)

Lemma registering_lookup_other this easy multi res w k :
  k ∉ socket_option_keys easy →
  w_easyopt (registering this easy multi res w) !! k = w_easyopt w !! k.
Proof.
  intros H. unfold socket_option_keys in H.
  apply not_elem_of_cons in H as [H1 H].
  apply not_elem_of_cons in H as [H2 H].
  apply not_elem_of_cons in H as [H3 H].
  apply not_elem_of_cons in H as [H4 _].
  unfold registering. simpl. destruct (N.eqb easy nullptr); [done|].
  by rewrite !lookup_insert_ne by done.
Qed.

Lemma registering_null this easy multi res w :
  N.eqb easy nullptr = true →
  w_easyopt (registering this easy multi res w) = w_easyopt w.
Proof. intros Z. unfold registering. simpl. by rewrite Z. Qed.

Lemma registering_sets this easy multi res w :
  N.eqb easy nullptr = false →
  socket_options_set this easy (registering this easy multi res w).
Proof.
  intros Z. unfold socket_options_set, registering. simpl. rewrite Z.
  repeat split; by simplify_map_eq.
Qed.

Lemma registering_keeps this easy' easy multi res w :
  socket_options_set this easy w →
  socket_options_set this easy (registering this easy' multi res w).
Proof.
  intros H. destruct (decide (easy' = easy)) as [->|Hne].
  { destruct (N.eqb easy nullptr) eqn:Z; [|by apply registering_sets].
    unfold socket_options_set. by rewrite registering_null. }
  destruct H as (H1 & H2 & H3 & H4). unfold socket_options_set.
  rewrite !registering_lookup_other; [done|..];
    unfold socket_option_keys; intros M;
    repeat (apply elem_of_cons in M as [M|M]; [congruence|]);
    by apply elem_of_nil in M.
Qed.

(** X7.  Whatever the engine answers, the posted body of [AsyncPerform]
    leaves the four socket options set on the easy handle it was given
    when that handle is not null, and leaves every option as it was when
    the handle is null; it changes no option of any other easy handle and
    no other option of that handle. *)
Theorem AsyncPerform_options_frame
    (this : ptr) (easy : Easy.t) (handler : Handler) (res : CURLMcode)
    (self : Multi) (w : World) (k : N * Z) :
  k ∉ socket_option_keys (Easy.GetNativeHandle easy) →
  w_easyopt (exec (AsyncPerform this easy handler res self) w) !! k = w_easyopt w !! k
  ∧ (if N.eqb (Easy.GetNativeHandle easy) nullptr
     then w_easyopt (exec (AsyncPerform this easy handler res self) w) = w_easyopt w
     else socket_options_set this (Easy.GetNativeHandle easy)
            (exec (AsyncPerform this easy handler res self) w)).
Proof.
  intros H. split.
  - rewrite AsyncPerform_easyopt. by apply registering_lookup_other.
  - destruct (N.eqb (Easy.GetNativeHandle easy) nullptr) eqn:Z.
    + rewrite AsyncPerform_easyopt. by apply registering_null.
    + pose proof (registering_sets this (Easy.GetNativeHandle easy)
                    (GetNativeHandle self) res w Z) as S.
      unfold socket_options_set in *. by rewrite AsyncPerform_easyopt.
Qed.

Lemma AsyncPerform_options_frame_witness :
  ((6%N, CURLOPT_OPENSOCKETDATA)
     ∉ socket_option_keys (Easy.GetNativeHandle (Easy.mk 5%N)))
  ∧ w_easyopt (exec (AsyncPerform 100%N (Easy.mk 5%N) 1%nat CURLM_OK (mkMulti 0 ∅ 9%N))
                 (mkWorld [] {[(6%N, CURLOPT_OPENSOCKETDATA) := data_Multi 200%N]}))
      !! (6%N, CURLOPT_OPENSOCKETDATA)
    = Some (data_Multi 200%N).
Proof.
  assert (H : (6%N, CURLOPT_OPENSOCKETDATA)
              ∉ socket_option_keys (Easy.GetNativeHandle (Easy.mk 5%N))).
  { unfold socket_option_keys. intros M.
    repeat (apply elem_of_cons in M as [M|M]; [discriminate|]).
    by apply elem_of_nil in M. }
  split; [exact H|].
  destruct (AsyncPerform_options_frame 100%N (Easy.mk 5%N) 1%nat CURLM_OK
              (mkMulti 0 ∅ 9%N)
              (mkWorld [] {[(6%N, CURLOPT_OPENSOCKETDATA) := data_Multi 200%N]})
              _ H) as [F _].
  rewrite F. reflexivity.
Defined.

Example AsyncPerform_null_easy_keeps_nothing :
  w_easyopt (exec (AsyncPerform 100%N (Easy.mk nullptr) 1%nat CURLM_BAD_EASY_HANDLE
                     (mkMulti 0 ∅ 9%N)) World_init)
  = ∅.
Proof. reflexivity. Qed.

Lemma run_op_keeps_options this o self w easy :
  socket_options_set this easy w →
  socket_options_set this easy (exec (run_op this o self) w).
Proof.
  intros H. destruct o as [easy' handler res|key ec|key]; cbn [run_op].
  - pose proof (registering_keeps this (Easy.GetNativeHandle easy') easy
                  (GetNativeHandle self) res w H) as S.
    unfold socket_options_set in *. by rewrite AsyncPerform_easyopt.
  - unfold exec. rewrite entry_Complete_run.
    by destruct (m_easyHandlerMap self !! key).
  - unfold exec. rewrite entry_erase_run.
    by destruct (m_easyHandlerMap self !! key).
Qed.

Lemma exec_lifetime_cons this o ops self w :
  exec (lifetime this (o :: ops) self) w
  = exec (lifetime this ops (eval (run_op this o self) w)) (exec (run_op this o self) w).
Proof.
  unfold exec, eval, lifetime. cbn [run]. unfold mbind, M_bind.
  by destruct (run_op this o self w).
Qed.

Lemma lifetime_keeps_options this ops self w easy :
  socket_options_set this easy w →
  socket_options_set this easy (exec (lifetime this ops self) w).
Proof.
  revert self w. induction ops as [|o ops IH]; intros self w H.
  - unfold exec, lifetime. cbn [run]. unfold mbind, M_bind, mret, M_ret.
    by rewrite destroy_members_run.
  - rewrite exec_lifetime_cons. apply IH. by apply run_op_keeps_options.
Qed.

(** X8.  The bridge never takes back the socket options it installs: at
    the end of the life of a [Multi], after the destruction of its
    members, every easy handle that was launched and is not null,
    accepted or rejected, completed or cancelled, still carries the
    open-socket and close-socket callbacks with the address of that
    [Multi] as their data. *)
Theorem socket_options_never_removed
    (this : ptr) (ops : list op) (self : Multi) (w : World)
    (easy : Easy.t) (handler : Handler) (res : CURLMcode) :
  op_AsyncPerform easy handler res ∈ ops →
  Easy.GetNativeHandle easy ≠ nullptr →
  socket_options_set this (Easy.GetNativeHandle easy)
    (exec (lifetime this ops self) w).
Proof.
  intros H Z. apply N.eqb_neq in Z. revert self w H.
  induction ops as [|o ops IH]; intros self w H.
  - by apply elem_of_nil in H.
  - rewrite exec_lifetime_cons. apply elem_of_cons in H as [<-|H].
    + apply lifetime_keeps_options. cbn [run_op].
      pose proof (registering_sets this (Easy.GetNativeHandle easy)
                    (GetNativeHandle self) res w Z) as S.
      unfold socket_options_set in *. by rewrite AsyncPerform_easyopt.
    + by apply IH.
Qed.

Lemma socket_options_never_removed_witness :
  op_AsyncPerform (Easy.mk 5%N) 1%nat CURLM_OK
    ∈ [op_AsyncPerform (Easy.mk 5%N) 1%nat CURLM_OK; op_Complete 5%N (ec_curle 0);
       op_erase 5%N]
  ∧ Easy.GetNativeHandle (Easy.mk 5%N) ≠ nullptr
  ∧ socket_options_set 100%N 5%N
      (exec (lifetime 100%N
               [op_AsyncPerform (Easy.mk 5%N) 1%nat CURLM_OK;
                op_Complete 5%N (ec_curle 0); op_erase 5%N]
               (mkMulti 0 ∅ 9%N)) World_init).
Proof.
  assert (H : op_AsyncPerform (Easy.mk 5%N) 1%nat CURLM_OK
              ∈ [op_AsyncPerform (Easy.mk 5%N) 1%nat CURLM_OK;
                 op_Complete 5%N (ec_curle 0); op_erase 5%N])
    by apply list_elem_of_here.
  assert (Z : Easy.GetNativeHandle (Easy.mk 5%N) ≠ nullptr) by discriminate.
  split; [exact H|]. split; [exact Z|].
  apply (socket_options_never_removed 100%N _ (mkMulti 0 ∅ 9%N) World_init
           (Easy.mk 5%N) 1%nat CURLM_OK H Z).
Defined.

(** ** What a launch can tell a handler *)

(** X9.  The posted body of [AsyncPerform] calls no handler but the one it
    was given, and never with a success: a call it makes carries the
    engine's code of a rejected registration, which is not [CURLM_OK], or
    [operation_aborted] when the engine accepted a launch for an easy
    handle that already had an entry. *)
Theorem AsyncPerform_calls_only_own_handler
    (this : ptr) (easy : Easy.t) (handler : Handler) (res : CURLMcode)
    (self : Multi) (w : World) (h : Handler) (ec : error_code) :
  call_handler h ec ∈ performed (AsyncPerform this easy handler res self) w →
  h = handler
  ∧ ((ec = ec_curlm res ∧ res ≠ CURLM_OK)
     ∨ (ec = operation_aborted ∧ res = CURLM_OK
        ∧ is_Some (m_easyHandlerMap self !! Easy.GetNativeHandle easy))).
Proof.
  rewrite AsyncPerform_performed. intros H.
  apply elem_of_app in H as [H|H].
  { unfold setopt_actions in H.
    repeat (apply elem_of_cons in H as [H|H]; [discriminate|]).
    by apply elem_of_nil in H. }
  apply elem_of_cons in H as [H|H]; [discriminate|].
  destruct (negb (Z.eqb res CURLM_OK)) eqn:R.
  - simpl in H.
    apply elem_of_cons in H as [H|H]; [discriminate|].
    apply elem_of_cons in H as [H|H].
    + injection H as -> ->. split; [done|]. left. split; [done|].
      apply negb_true_iff in R. by apply Z.eqb_neq in R.
    + apply elem_of_cons in H as [H|H]; [discriminate|]. by apply elem_of_nil in H.
  - destruct (m_easyHandlerMap self !! Easy.GetNativeHandle easy) as [h0|] eqn:E.
    + simpl in H.
      apply elem_of_cons in H as [H|H]; [discriminate|].
      apply elem_of_cons in H as [H|H].
      * injection H as -> ->. split; [done|]. right. split; [done|].
        apply negb_false_iff in R. apply Z.eqb_eq in R. eauto.
      * apply elem_of_cons in H as [H|H]; [discriminate|]. by apply elem_of_nil in H.
    + by apply elem_of_nil in H.
Qed.

Lemma AsyncPerform_calls_only_own_handler_witness :
  call_handler 1%nat (ec_curlm CURLM_OUT_OF_MEMORY)
    ∈ performed (AsyncPerform 100%N (Easy.mk 5%N) 1%nat CURLM_OUT_OF_MEMORY
                   (mkMulti 0 ∅ 9%N)) World_init
  ∧ (1%nat = 1%nat
     ∧ ((ec_curlm CURLM_OUT_OF_MEMORY = ec_curlm CURLM_OUT_OF_MEMORY
         ∧ CURLM_OUT_OF_MEMORY ≠ CURLM_OK)
        ∨ (ec_curlm CURLM_OUT_OF_MEMORY = operation_aborted
           ∧ CURLM_OUT_OF_MEMORY = CURLM_OK
           ∧ is_Some (m_easyHandlerMap (mkMulti 0 ∅ 9%N)
                        !! Easy.GetNativeHandle (Easy.mk 5%N))))).
Proof.
  assert (H : call_handler 1%nat (ec_curlm CURLM_OUT_OF_MEMORY)
              ∈ performed (AsyncPerform 100%N (Easy.mk 5%N) 1%nat CURLM_OUT_OF_MEMORY
                             (mkMulti 0 ∅ 9%N)) World_init).
  { vm_compute. do 6 apply list_elem_of_further. apply list_elem_of_here. }
  split; [exact H|].
  apply (AsyncPerform_calls_only_own_handler 100%N (Easy.mk 5%N) 1%nat
           CURLM_OUT_OF_MEMORY (mkMulti 0 ∅ 9%N) World_init 1%nat _ H).
Defined.

(** ** Launches of different easy handles *)

Lemma AsyncPerform_performed_frame this easy handler res self self' w w' :
  GetNativeHandle self' = GetNativeHandle self →
  m_easyHandlerMap self' !! Easy.GetNativeHandle easy
  = m_easyHandlerMap self !! Easy.GetNativeHandle easy →
  performed (AsyncPerform this easy handler res self') w'
  = performed (AsyncPerform this easy handler res self) w.
Proof. intros G L. rewrite !AsyncPerform_performed. by rewrite G, L. Qed.

Lemma AsyncPerform_lookup_other this easy handler res self w key :
  Easy.GetNativeHandle easy ≠ key →
  m_easyHandlerMap (eval (AsyncPerform this easy handler res self) w) !! key
  = m_easyHandlerMap self !! key.
Proof.
  intros N. rewrite AsyncPerform_eval.
  destruct (negb (Z.eqb res CURLM_OK)); [done|].
  destruct (m_easyHandlerMap self !! Easy.GetNativeHandle easy); [done|].
  simpl. by rewrite lookup_insert_ne.
Qed.

Lemma AsyncPerform_GetNativeHandle this easy handler res self w :
  GetNativeHandle (eval (AsyncPerform this easy handler res self) w)
  = GetNativeHandle self.
Proof. apply (run_op_GetNativeHandle this (op_AsyncPerform easy handler res)). Qed.

Lemma two_launches_performed this easy1 h1 res1 easy2 h2 res2 self w :
  Easy.GetNativeHandle easy1 ≠ Easy.GetNativeHandle easy2 →
  performed (m ← AsyncPerform this easy1 h1 res1 self ;
             AsyncPerform this easy2 h2 res2 m) w
  = performed (AsyncPerform this easy1 h1 res1 self) w
    ++ performed (AsyncPerform this easy2 h2 res2 self) w.
Proof.
  intros N. rewrite performed_bind;
    [|apply AsyncPerform_shaped|intros a; apply AsyncPerform_shaped].
  f_equal. apply AsyncPerform_performed_frame.
  - apply AsyncPerform_GetNativeHandle.
  - by apply AsyncPerform_lookup_other.
Qed.

Lemma two_launches_eval this easy1 h1 res1 easy2 h2 res2 self w :
  eval (m ← AsyncPerform this easy1 h1 res1 self ;
        AsyncPerform this easy2 h2 res2 m) w
  = eval (AsyncPerform this easy2 h2 res2
            (eval (AsyncPerform this easy1 h1 res1 self) w))
      (exec (AsyncPerform this easy1 h1 res1 self) w).
Proof.
  unfold eval, exec, mbind, M_bind.
  by destruct (AsyncPerform this easy1 h1 res1 self w).
Qed.

Lemma two_launches_exec this easy1 h1 res1 easy2 h2 res2 self w :
  exec (m ← AsyncPerform this easy1 h1 res1 self ;
        AsyncPerform this easy2 h2 res2 m) w
  = exec (AsyncPerform this easy2 h2 res2
            (eval (AsyncPerform this easy1 h1 res1 self) w))
      (exec (AsyncPerform this easy1 h1 res1 self) w).
Proof.
  unfold eval, exec, mbind, M_bind.
  by destruct (AsyncPerform this easy1 h1 res1 self w).
Qed.

Lemma registering_lookup this easy multi res w k :
  w_easyopt (registering this easy multi res w) !! k
  = if N.eqb easy nullptr then w_easyopt w !! k
    else if decide (k = (easy, CURLOPT_CLOSESOCKETDATA)) then Some (data_Multi this)
    else if decide (k = (easy, CURLOPT_CLOSESOCKETFUNCTION)) then Some fn_CloseSocketCb
    else if decide (k = (easy, CURLOPT_OPENSOCKETDATA)) then Some (data_Multi this)
    else if decide (k = (easy, CURLOPT_OPENSOCKETFUNCTION)) then Some fn_OpenSocketCb
    else w_easyopt w !! k.
Proof.
  unfold registering. simpl. destruct (N.eqb easy nullptr); [done|].
  rewrite !lookup_insert. repeat case_decide; congruence.
Qed.

(** X10.  Launches of two different easy handles commute.  In either
    order they leave the same [Multi], with the same registry, and the
    same options on the easy handles, and each of the two makes the calls
    it would make alone: the one log is a permutation of the other. *)
Theorem launches_of_different_handles_commute
    (this : ptr) (easy1 easy2 : Easy.t) (h1 h2 : Handler) (res1 res2 : CURLMcode)
    (self : Multi) (w : World) :
  Easy.GetNativeHandle easy1 ≠ Easy.GetNativeHandle easy2 →
  eval (m ← AsyncPerform this easy1 h1 res1 self ;
        AsyncPerform this easy2 h2 res2 m) w
  = eval (m ← AsyncPerform this easy2 h2 res2 self ;
          AsyncPerform this easy1 h1 res1 m) w
  ∧ w_easyopt (exec (m ← AsyncPerform this easy1 h1 res1 self ;
                     AsyncPerform this easy2 h2 res2 m) w)
    = w_easyopt (exec (m ← AsyncPerform this easy2 h2 res2 self ;
                       AsyncPerform this easy1 h1 res1 m) w)
  ∧ performed (m ← AsyncPerform this easy1 h1 res1 self ;
               AsyncPerform this easy2 h2 res2 m) w
    = performed (AsyncPerform this easy1 h1 res1 self) w
      ++ performed (AsyncPerform this easy2 h2 res2 self) w
  ∧ performed (m ← AsyncPerform this easy1 h1 res1 self ;
               AsyncPerform this easy2 h2 res2 m) w
    ≡ₚ performed (m ← AsyncPerform this easy2 h2 res2 self ;
                  AsyncPerform this easy1 h1 res1 m) w.
Proof.
  intros N. assert (N' : Easy.GetNativeHandle easy2 ≠ Easy.GetNativeHandle easy1)
    by congruence.
  split; [|split; [|split]].
  - rewrite !two_launches_eval.
    pose proof (AsyncPerform_GetNativeHandle this easy1 h1 res1 self w) as G1.
    pose proof (AsyncPerform_GetNativeHandle this easy2 h2 res2 self w) as G2.
    pose proof (AsyncPerform_lookup_other this easy1 h1 res1 self w _ N) as L1.
    pose proof (AsyncPerform_lookup_other this easy2 h2 res2 self w _ N') as L2.
    rewrite (AsyncPerform_eval this easy2 h2 res2
               (eval (AsyncPerform this easy1 h1 res1 self) w)).
    rewrite (AsyncPerform_eval this easy1 h1 res1
               (eval (AsyncPerform this easy2 h2 res2 self) w)).
    rewrite G1, G2, L1, L2. rewrite !AsyncPerform_eval.
    destruct (negb (Z.eqb res1 CURLM_OK)), (negb (Z.eqb res2 CURLM_OK)); try done;
      destruct (m_easyHandlerMap self !! Easy.GetNativeHandle easy1);
      destruct (m_easyHandlerMap self !! Easy.GetNativeHandle easy2); try done.
    unfold set_easyHandlerMap. simpl. f_equal. by apply insert_insert_ne.
  - rewrite !two_launches_exec, !AsyncPerform_easyopt.
    apply map_eq. intros k.
    rewrite !registering_lookup, !AsyncPerform_easyopt, !registering_lookup.
    destruct (N.eqb (Easy.GetNativeHandle easy1) nullptr),
      (N.eqb (Easy.GetNativeHandle easy2) nullptr);
      repeat case_decide; congruence.
  - by apply two_launches_performed.
  - rewrite !two_launches_performed by done. apply Permutation_app_comm.
Qed.

Lemma launches_of_different_handles_commute_witness :
  Easy.GetNativeHandle (Easy.mk 5%N) ≠ Easy.GetNativeHandle (Easy.mk 6%N)
  ∧ eval (m ← AsyncPerform 100%N (Easy.mk 5%N) 1%nat CURLM_OK (mkMulti 0 ∅ 9%N) ;
          AsyncPerform 100%N (Easy.mk 6%N) 2%nat CURLM_OUT_OF_MEMORY m) World_init
    = eval (m ← AsyncPerform 100%N (Easy.mk 6%N) 2%nat CURLM_OUT_OF_MEMORY
                  (mkMulti 0 ∅ 9%N) ;
            AsyncPerform 100%N (Easy.mk 5%N) 1%nat CURLM_OK m) World_init.
Proof.
  assert (H : Easy.GetNativeHandle (Easy.mk 5%N) ≠ Easy.GetNativeHandle (Easy.mk 6%N))
    by discriminate.
  split; [exact H|].
  apply (launches_of_different_handles_commute 100%N (Easy.mk 5%N) (Easy.mk 6%N)
           1%nat 2%nat CURLM_OK CURLM_OUT_OF_MEMORY (mkMulti 0 ∅ 9%N) World_init H).
Defined.

(** ** The cleanup of the engine handle *)

Lemma count_cleanup_Complete_actions ec h :
  count is_cleanup (Complete_actions ec h) = 0%nat.
Proof. unfold Complete_actions. by destruct (Handled h). Qed.

Lemma count_cleanup_flat_map ec (l : list (N * PerformHandler)) :
  count is_cleanup (flat_map (λ e, Complete_actions ec e.2) l) = 0%nat.
Proof.
  induction l as [|e l IH]; simpl; [done|].
  by rewrite count_app, IH, count_cleanup_Complete_actions.
Qed.

Lemma run_op_no_cleanup this o self w :
  count is_cleanup (performed (run_op this o self) w) = 0%nat.
Proof.
  destruct o as [easy handler res|key ec|key]; cbn [run_op].
  - rewrite AsyncPerform_performed, count_app. simpl.
    destruct (negb (Z.eqb res CURLM_OK)); [done|].
    by destruct (m_easyHandlerMap self !! Easy.GetNativeHandle easy).
  - rewrite entry_Complete_performed.
    destruct (m_easyHandlerMap self !! key);
      [apply count_cleanup_Complete_actions|done].
  - rewrite entry_erase_performed.
    destruct (m_easyHandlerMap self !! key);
      [apply count_cleanup_Complete_actions|done].
Qed.

Lemma run_no_cleanup this ops self w :
  count is_cleanup (performed (run this ops self) w) = 0%nat.
Proof.
  revert self w. induction ops as [|o ops IH]; intros self w.
  - unfold performed, exec. cbn [run]. unfold mret, M_ret. simpl.
    by rewrite drop_all.
  - by rewrite run_cons_performed, count_app, IH, run_op_no_cleanup.
Qed.

Lemma lifetime_performed this ops self w :
  performed (lifetime this ops self) w
  = performed (run this ops self) w
    ++ performed (destroy_members (eval (run this ops self) w))
         (exec (run this ops self) w).
Proof.
  unfold lifetime. apply performed_bind; [apply run_shaped|].
  intros a. apply destroy_members_shaped.
Qed.

(** X11.  The engine handle is cleaned up once in the life of a valid
    [Multi] and never in the life of an invalid one, whose null handle is
    not passed to [curl_multi_cleanup].  The cleanup comes after every
    operation of that life, and the handlers that the registry still
    holds are destroyed after it: a transfer still pending then is
    unregistered, and its handler called with [operation_aborted], after
    the cleanup. *)
Theorem engine_handle_cleaned_up_once
    (this : ptr) (ops : list op) (self : Multi) (w : World) :
  performed (lifetime this ops self) w
  = performed (run this ops self) w
    ++ (if operator_bool self then [curl_multi_cleanup (GetNativeHandle self)] else [])
    ++ flat_map (λ e, Complete_actions operation_aborted e.2)
         (map_to_list (m_easyHandlerMap (eval (run this ops self) w)))
  ∧ count is_cleanup (performed (run this ops self) w) = 0%nat
  ∧ count is_cleanup (performed (lifetime this ops self) w)
    = (if operator_bool self then 1%nat else 0%nat).
Proof.
  assert (P : performed (lifetime this ops self) w
              = performed (run this ops self) w
                ++ (if operator_bool self
                    then [curl_multi_cleanup (GetNativeHandle self)] else [])
                ++ flat_map (λ e, Complete_actions operation_aborted e.2)
                     (map_to_list (m_easyHandlerMap (eval (run this ops self) w)))).
  { rewrite lifetime_performed, destroy_members_performed. unfold cleanup_actions.
    pose proof (run_GetNativeHandle this ops self w) as G.
    unfold operator_bool. unfold GetNativeHandle in *. by rewrite G. }
  split; [exact P|]. split; [apply run_no_cleanup|].
  rewrite P, !count_app, run_no_cleanup, count_cleanup_flat_map.
  by destruct (operator_bool self).
Qed.

(** ** A Multi whose engine could not be constructed *)

Lemma lifetime_targets this ops self w :
  well_keyed self →
  forallb (targets (GetNativeHandle self)) (performed (lifetime this ops self) w)
  = true.
Proof.
  revert self w. induction ops as [|o ops IH]; intros self w W.
  - rewrite lifetime_nil_performed. by apply destroy_members_targets.
  - rewrite lifetime_cons_performed. apply forallb_app_true.
    + by apply run_op_targets.
    + rewrite <- (run_op_GetNativeHandle this o self w).
      apply IH. by apply run_op_well_keyed.
Qed.

Lemma lifetime_cleanups this ops self w :
  count is_cleanup (performed (lifetime this ops self) w)
  = if operator_bool self then 1%nat else 0%nat.
Proof.
  rewrite lifetime_performed, destroy_members_performed, !count_app.
  rewrite run_no_cleanup, count_cleanup_flat_map. unfold cleanup_actions.
  pose proof (run_GetNativeHandle this ops self w) as G.
  unfold operator_bool. unfold GetNativeHandle in G. rewrite G.
  by destruct (negb (N.eqb (m_nativeHandle self) nullptr)).
Qed.

(** C9.  A [Multi] constructed when the engine could not be constructed
    holds a null native handle and converts to false, and nothing in the
    header recovers from it: through any sequence of launches,
    completions and erasures it stays invalid with a null handle, every
    call into the engine that it makes passes the null handle, and its
    destruction calls no [curl_multi_cleanup].  Whatever the engine
    returned at construction, the validity of the [Multi] stays what it
    was then. *)
Theorem Multi_ctor_failure_never_recovered
    (this : ptr) (executor : nat) (init : CURLM) (ops : list op) (w : World) :
  operator_bool (Multi_ctor executor nullptr) = false
  ∧ operator_bool (eval (run this ops (Multi_ctor executor nullptr)) w) = false
  ∧ GetNativeHandle (eval (run this ops (Multi_ctor executor nullptr)) w) = nullptr
  ∧ forallb (targets nullptr)
      (performed (lifetime this ops (Multi_ctor executor nullptr)) w) = true
  ∧ count is_cleanup (performed (lifetime this ops (Multi_ctor executor nullptr)) w)
    = 0%nat
  ∧ operator_bool (eval (run this ops (Multi_ctor executor init)) w)
    = negb (N.eqb init nullptr).
Proof.
  assert (V : ∀ i, operator_bool (eval (run this ops (Multi_ctor executor i)) w)
                   = negb (N.eqb i nullptr)).
  { intros i. pose proof (run_GetNativeHandle this ops (Multi_ctor executor i) w) as G.
    unfold operator_bool. unfold GetNativeHandle in G. by rewrite G. }
  split; [done|]. split; [apply (V nullptr)|].
  split; [apply run_GetNativeHandle|]. split; [|split; [|apply V]].
  - apply (lifetime_targets this ops (Multi_ctor executor nullptr) w).
    apply well_keyed_empty.
  - by rewrite lifetime_cleanups.
Qed.
